(** * CAMS pipeline API: the streaming bridge of [fastapi_app/main.py]

    A shallow embedding of the FastAPI application that consumes
    student-activity events from a Kafka topic, inserts each event into the
    [activity] table and pushes it to every connected websocket.

    The Python coroutines are embedded in a state-and-exception monad over a
    [World] that holds the mutable objects of the module ([manager.active],
    [app.state.db], [app.state.kafka_task]), the rows of the [activity]
    table, and the trace of calls made to the libraries the module drives
    (Starlette websockets, asyncpg, aiokafka, asyncio).  Whether such a call
    returns or raises is not decided by the module: it is read from an
    oracle, a function of the call and of everything that happened before.

    The embedding is sequential: it follows one coroutine between its
    suspension points and does not interleave coroutines.  A call either
    returns or raises an [Exception]; what only another coroutine can bring
    about while this one is suspended, the cancellation of the task that
    runs it (a [BaseException] that no handler of the module catches), is
    outside the embedding. *)

From Stdlib Require Import QArith.
From stdpp Require Import gmap strings list sorting.
Close Scope Q_scope.

Set Warnings "-register-all".

(** ** Values *)

(** What [json.loads] returns: [None], a bool, a number, a [str], a [list]
    or a [dict] with string keys.  A number is kept as the exact rational
    its literal denotes. *)
Inductive json : Type :=
  | JNull
  | JBool (b : bool)
  | JNum (q : Q)
  | JStr (s : string)
  | JArr (l : list json)
  | JObj (d : gmap string json).

(** A websocket is identified by its handle: Python compares [WebSocket]
    objects by identity. *)
Definition WebSocket := nat.

(** The arguments of [asyncpg.create_pool] that the module sets, and whether
    the pool has been closed. *)
Record Pool := mkPool {
  min_size : nat;
  max_size : nat;
  closed : bool
}.

(** What the module has asked of the task object kept in
    [app.state.kafka_task]: it was created, or [cancel()] was called on it.
    Whether the task has ended by some point is decided by the event loop
    and is not recorded. *)
Inductive task_status :=
  | Scheduled
  | CancelRequested.

(** One row of the [activity] table.  [ts] is the recorded time, in
    seconds since the epoch, [None] is SQL NULL. *)
Record Row := mkRow {
  student_id : json;
  status : json;
  confidence : json;
  ts : option Q
}.

(** ** Calls to the outside *)

Inductive Call :=
  | CAccept (websocket : WebSocket)                (* websocket.accept() *)
  | CSendText (connection : WebSocket) (message : string)
                                                   (* connection.send_text(message) *)
  | CCreatePool (min_size max_size : nat)          (* asyncpg.create_pool(PG_DSN, ...) *)
  | CPoolClose (p : Pool)                          (* app.state.db.close() *)
  | CAcquire (p : Pool)                            (* entering app.state.db.acquire() *)
  | CRelease (p : Pool)                            (* leaving the acquire() block *)
  | CExecute (sql : string) (args : list json)     (* conn.execute(sql, *args) *)
  | CFetch (sql : string)                          (* conn.fetch(sql) *)
  | CConsumerStart                                 (* consumer.start() *)
  | CConsumerStop                                  (* consumer.stop() *)
  | CCreateTask                                    (* asyncio.create_task(...) *)
  | CTaskCancel                                    (* task.cancel() *)
  | CTaskWait.                                     (* awaiting the task itself *)

(** A call together with its outcome: [true] when it returned, [false] when
    it raised an [Exception]. *)
Inductive Event :=
  | Ev (c : Call) (ok : bool).

Inductive exn :=
  | AttributeError          (* attribute missing on app.state, or [get] on a non-dict *)
  | ValueError              (* list.remove(x) with x absent *)
  | DeserializationError    (* value_deserializer raised *)
  | StoreError              (* raised by asyncpg *)
  | BrokerError             (* raised by aiokafka *)
  | TypeError               (* [**data] on a value that is no mapping *)
  | TransportError.         (* raised by the websocket *)

(** ** The world *)

Record World := mkWorld {
  active : list WebSocket;            (* manager.active *)
  db : option Pool;                   (* app.state.db, None before startup *)
  kafka_task : option task_status;    (* app.state.kafka_task *)
  table : list Row;                   (* rows of activity, in arrival order *)
  trace : list Event;                 (* calls made so far, oldest first *)
  outside : list Event → Call → bool; (* outcome of the next call *)
  to_timestamp : json → option Q      (* what the store records for $4 *)
}.

Definition set_active (l : list WebSocket) (w : World) : World :=
  mkWorld l (db w) (kafka_task w) (table w) (trace w) (outside w)
    (to_timestamp w).

Definition set_db (p : option Pool) (w : World) : World :=
  mkWorld (active w) p (kafka_task w) (table w) (trace w) (outside w)
    (to_timestamp w).

Definition set_kafka_task (t : option task_status) (w : World) : World :=
  mkWorld (active w) (db w) t (table w) (trace w) (outside w)
    (to_timestamp w).

Definition set_table (rows : list Row) (w : World) : World :=
  mkWorld (active w) (db w) (kafka_task w) rows (trace w) (outside w)
    (to_timestamp w).

Definition set_trace (tr : list Event) (w : World) : World :=
  mkWorld (active w) (db w) (kafka_task w) (table w) tr (outside w)
    (to_timestamp w).

(** ** The monad of coroutines *)

Inductive outcome (A : Type) :=
  | Ret (a : A)
  | Raise (e : exn).
Arguments Ret {A} a.
Arguments Raise {A} e.

Definition M (A : Type) : Type := World → outcome A * World.

Definition ret {A} (a : A) : M A := λ w, (Ret a, w).

Definition raise {A} (e : exn) : M A := λ w, (Raise e, w).

Definition bind {A B} (m : M A) (k : A → M B) : M B :=
  λ w, match m w with
       | (Ret a, w1) => k a w1
       | (Raise e, w1) => (Raise e, w1)
       end.

Notation "x <- m ;; k" := (bind m (λ x, k))
  (at level 100, m at next level, right associativity).
Notation "m ;; k" := (bind m (λ _, k))
  (at level 100, right associativity).

(** [try: body finally: cleanup].  The cleanup runs however the body ends;
    an exception of the cleanup replaces the outcome of the body. *)
Definition try_finally {A} (body : M A) (cleanup : M unit) : M A :=
  λ w, match body w with
       | (r, w1) =>
           match cleanup w1 with
           | (Ret _, w2) => (r, w2)
           | (Raise e, w2) => (Raise e, w2)
           end
       end.

(** A call that may raise: the oracle is asked and the call is recorded. *)
Definition call (c : Call) : M bool :=
  λ w, let ok := outside w (trace w) c in
       (Ret ok, set_trace (trace w ++ [Ev c ok]) w).

(** A call that is recorded and returns. *)
Definition emit (c : Call) : M unit :=
  λ w, (Ret tt, set_trace (trace w ++ [Ev c true]) w).

(** A call whose exception is not caught where it is made. *)
Definition call_or_raise (c : Call) (e : exn) : M unit :=
  ok <- call c ;; if (ok : bool) then ret tt else raise e.

(** ** class ConnectionManager *)

(** [list.remove(x)]: drops the first occurrence, [None] stands for the
    [ValueError] raised when there is none. *)
Fixpoint list_remove (x : WebSocket) (l : list WebSocket) : option (list WebSocket) :=
  match l with
  | [] => None
  | y :: l' => if decide (x = y) then Some l' else (y ::.) <$> list_remove x l'
  end.

(** [connect]: the handshake, then an unconditional [append]. *)
Definition connect (websocket : WebSocket) : M unit :=
  call_or_raise (CAccept websocket) TransportError ;;
  λ w, (Ret tt, set_active (active w ++ [websocket]) w).

(** [disconnect]: [remove] under the membership test. *)
Definition disconnect (websocket : WebSocket) : M unit :=
  λ w, if decide (websocket ∈ active w)
       then match list_remove websocket (active w) with
            | Some l => (Ret tt, set_active l w)
            | None => (Raise ValueError, w)
            end
       else (Ret tt, w).

(** The first loop of [broadcast].  Python iterates a list by index and
    reads the list anew at every step, so the loop looks [self.active] up in
    the current world; [to_remove] collects the connections whose
    [send_text] raised an [Exception], the outcome [false] of the call,
    which is what [except Exception] catches.  [fuel] bounds the number of
    iterations. *)
Fixpoint broadcast_pass (fuel i : nat) (message : string)
    (to_remove : list WebSocket) : M (list WebSocket) :=
  match fuel with
  | 0 => ret to_remove
  | S fuel' =>
      λ w, match active w !! i with
           | None => (Ret to_remove, w)
           | Some connection =>
               (ok <- call (CSendText connection message) ;;
                broadcast_pass fuel' (S i) message
                  (if (ok : bool) then to_remove else to_remove ++ [connection])) w
           end
  end.

(** The second loop of [broadcast]: [for c in to_remove: self.disconnect(c)]. *)
Fixpoint disconnect_each (to_remove : list WebSocket) : M unit :=
  match to_remove with
  | [] => ret tt
  | c :: rest => disconnect c ;; disconnect_each rest
  end.

(** [broadcast].  The first loop ends when the index reaches the length of
    the list; its body leaves the list alone, so as many iterations as the
    list is long at the start are enough (lemma [broadcast_pass_fuel]). *)
Definition broadcast (message : string) : M unit :=
  λ w, (to_remove <- broadcast_pass (length (active w)) 0 message [] ;;
        disconnect_each to_remove) w.

(** ** Python dicts *)

(** [d.get(key)]: the value, or [None] when the key is missing. *)
Definition dict_get (d : gmap string json) (key : string) : json :=
  default JNull (d !! key).

(** [d.update(other)], also what [{k: v, **other}] does to the entries
    written before [**other]: on a shared key the value of [other] wins. *)
Definition dict_update (d other : gmap string json) : gmap string json :=
  other ∪ d.

(** [data.get(key)] on a value that came out of [json.loads]: only a dict
    has the method. *)
Definition get (data : json) (key : string) : M json :=
  match data with
  | JObj d => ret (dict_get d key)
  | _ => raise AttributeError
  end.

(** [{"type": "ALERT", **data}]: unpacking needs a mapping. *)
Definition alert_payload (data : json) : M json :=
  match data with
  | JObj d => ret (JObj (dict_update {["type" := JStr "ALERT"]} d))
  | _ => raise TypeError
  end.

(** ** The pool and the table *)

(** Reading [app.state.db]. *)
Definition state_db : M Pool :=
  λ w, match db w with
       | Some p => (Ret p, w)
       | None => (Raise AttributeError, w)
       end.

(** Reading [app.state.kafka_task]. *)
Definition state_kafka_task : M task_status :=
  λ w, match kafka_task w with
       | Some t => (Ret t, w)
       | None => (Raise AttributeError, w)
       end.

(** [async with app.state.db.acquire() as conn: body].  A closed pool
    refuses; otherwise the outcome of the acquisition is the oracle's.  The
    connection goes back to the pool however the body ends. *)
Definition with_connection {A} (body : M A) : M A :=
  p <- state_db ;;
  (if closed p
   then (λ w, (Raise StoreError, set_trace (trace w ++ [Ev (CAcquire p) false]) w))
   else call_or_raise (CAcquire p) StoreError) ;;
  try_finally body (emit (CRelease p)).

Definition insert_sql : string :=
  "INSERT INTO activity (student_id, status, confidence, ts) VALUES ($1,$2,$3, to_timestamp($4))".

Definition select_sql : string :=
  "SELECT student_id, status, confidence, ts FROM activity ORDER BY ts DESC LIMIT 20".

(** [conn.execute(insert_sql, a1, a2, a3, a4)]: when the statement succeeds
    the table has one more row.  Its [ts] is [to_timestamp($4)] as the
    driver and the store compute it from the argument, which the module
    does not decide: the embedding takes it from the world. *)
Definition execute_insert (a1 a2 a3 a4 : json) : M unit :=
  call_or_raise (CExecute insert_sql [a1; a2; a3; a4]) StoreError ;;
  λ w, (Ret tt, set_table (table w ++ [mkRow a1 a2 a3 (to_timestamp w a4)]) w).

(** [ORDER BY ts DESC]: later rows first; PostgreSQL puts NULL before every
    value in a descending order. *)
Definition ts_desc (r1 r2 : Row) : Prop :=
  match ts r1, ts r2 with
  | None, _ => True
  | Some _, None => False
  | Some a, Some b => (b <= a)%Q
  end.

#[global] Instance ts_desc_dec : RelDecision ts_desc.
Proof.
  intros r1 r2. unfold ts_desc.
  destruct (ts r1) as [a|], (ts r2) as [b|];
    [ destruct (Qlt_le_dec a b) as [Hlt|Hle];
        [ right; apply Qlt_not_le, Hlt | left; exact Hle ]
    | right; tauto | left; exact I | left; exact I ].
Defined.

(** [SELECT ... ORDER BY ts DESC LIMIT n] over the rows of the table. *)
Definition order_by_ts_desc_limit (n : nat) (rows : list Row) : list Row :=
  take n (merge_sort ts_desc rows).

(** [conn.fetch(select_sql)]. *)
Definition fetch_recent : M (list Row) :=
  ok <- call (CFetch select_sql) ;;
  if (ok : bool)
  then λ w, (Ret (order_by_ts_desc_limit 20 (table w)), w)
  else raise StoreError.

(** ** Lifecycle and routes *)

(** [startup]: the pool first, then the consumer task. *)
Definition startup : M unit :=
  call_or_raise (CCreatePool 1 5) StoreError ;;
  (λ w, (Ret tt, set_db (Some (mkPool 1 5 false)) w)) ;;
  emit CCreateTask ;;
  λ w, (Ret tt, set_kafka_task (Some Scheduled) w).

(** [app.state.kafka_task.cancel()]: asks the task to stop. *)
Definition cancel_task : M unit :=
  _ <- state_kafka_task ;;
  emit CTaskCancel ;;
  λ w, (Ret tt, set_kafka_task (Some CancelRequested) w).

(** [await app.state.db.close()]. *)
Definition close_pool : M unit :=
  p <- state_db ;;
  call_or_raise (CPoolClose p) StoreError ;;
  λ w, (Ret tt, set_db (Some (mkPool (min_size p) (max_size p) true)) w).

(** [shutdown]: [cancel()], then [close()]. *)
Definition shutdown : M unit :=
  cancel_task ;; close_pool.

(** [GET /recent]: [dict(r)] of a row is the row with its four columns. *)
Definition recent : M (list Row) :=
  rows <- with_connection fetch_recent ;;
  ret rows.

(** [GET /health]: the same answer in every world. *)
Definition health : M (gmap string json) :=
  ret {["status" := JStr "ok"]}.

(** How the keepalive loop of [ws_alerts] ends: [receive_text] raises
    [WebSocketDisconnect], or it raises something else. *)
Inductive channel_end :=
  | ClientDisconnect
  | ChannelError.

(** [while True: await websocket.receive_text()] over the frames the client
    sends before the channel ends: each frame is read and dropped. *)
Fixpoint receive_frames (frames : list string) : M unit :=
  match frames with
  | [] => ret tt
  | _ :: rest => receive_frames rest
  end.

(** [ws_alerts]: [connect], outside the [try]; then the keepalive loop, of
    which only [WebSocketDisconnect] is caught, with [disconnect] as its
    handler. *)
Definition ws_alerts (websocket : WebSocket) (frames : list string)
    (ending : channel_end) : M unit :=
  connect websocket ;;
  receive_frames frames ;;
  match ending with
  | ClientDisconnect => disconnect websocket
  | ChannelError => raise TransportError
  end.

(** ** The consumer *)

Section Consumer.

(** [value_deserializer]: [json.loads(m.decode('utf-8'))], [None] when it
    raises; [json_dumps]: [json.dumps]. *)
Variable value_deserializer : string → option json.
Variable json_dumps : json → string.

(** The body of the [async for] loop, [data] being [msg.value]. *)
Definition process_message (data : json) : M unit :=
  with_connection
    (a1 <- get data "student_id" ;;
     a2 <- get data "status" ;;
     a3 <- get data "confidence" ;;
     a4 <- get data "timestamp" ;;
     execute_insert a1 a2 a3 a4) ;;
  payload <- alert_payload data ;;
  broadcast (json_dumps payload).

(** [async for msg in consumer: ...] over the payloads the broker delivers,
    in delivery order.  The iterator applies [value_deserializer] to a
    payload before the loop body sees the message. *)
Fixpoint consume (payloads : list string) : M unit :=
  match payloads with
  | [] => ret tt
  | m :: rest =>
      match value_deserializer m with
      | None => raise DeserializationError
      | Some data => process_message data ;; consume rest
      end
  end.

(** [kafka_consumer_task]: [start()], then the loop under
    [try: ... finally: await consumer.stop()]. *)
Definition kafka_consumer_task (payloads : list string) : M unit :=
  call_or_raise CConsumerStart BrokerError ;;
  try_finally (consume payloads) (call_or_raise CConsumerStop BrokerError).

End Consumer.

(** ** Observations used in the statements *)

(** What the oracle answers along one pass over [conns]: each connection
    with the outcome of its [send_text], in the order of the sends. *)
Fixpoint send_outcomes (o : list Event → Call → bool) (tr : list Event)
    (message : string) (conns : list WebSocket) : list (WebSocket * bool) :=
  match conns with
  | [] => []
  | c :: rest =>
      let ok := o tr (CSendText c message) in
      (c, ok) :: send_outcomes o (tr ++ [Ev (CSendText c message) ok]) message rest
  end.

Definition send_event (message : string) (out : WebSocket * bool) : Event :=
  Ev (CSendText out.1 message) out.2.

(** The connections whose send raised, and those whose send returned. *)
Definition failed (outs : list (WebSocket * bool)) : list WebSocket :=
  (filter (λ out, out.2 = false) outs).*1.

Definition delivered (outs : list (WebSocket * bool)) : list WebSocket :=
  (filter (λ out, out.2 = true) outs).*1.

(** How often a connection occurs in a registry. *)
Definition occurrences (c : WebSocket) (l : list WebSocket) : nat :=
  length (filter (c =.) l).

(** The registry after [disconnect] of each element of [rm] in turn. *)
Fixpoint remove_each (l rm : list WebSocket) : list WebSocket :=
  match rm with
  | [] => l
  | c :: rest => remove_each (default l (list_remove c l)) rest
  end.

(** The arguments of the INSERT, the row it adds in the store of a world
    and the dict that is broadcast, for an event that is a dict. *)
Definition insert_args (d : gmap string json) : list json :=
  [dict_get d "student_id"; dict_get d "status";
   dict_get d "confidence"; dict_get d "timestamp"].

Definition row_of (w : World) (d : gmap string json) : Row :=
  mkRow (dict_get d "student_id") (dict_get d "status")
        (dict_get d "confidence") (to_timestamp w (dict_get d "timestamp")).

Definition alert_of (d : gmap string json) : json :=
  JObj (dict_update {["type" := JStr "ALERT"]} d).

Definition is_send (e : Event) : Prop :=
  match e with
  | Ev (CSendText _ _) _ => True
  | _ => False
  end.

(** The store answers: the pool in [app.state.db] is open and every
    acquisition, INSERT and SELECT returns, whatever happened before. *)
Definition store_up (w : World) (p : Pool) : Prop :=
  db w = Some p ∧ closed p = false ∧
  ∀ tr, outside w tr (CAcquire p) = true ∧
        outside w tr (CFetch select_sql) = true ∧
        ∀ args, outside w tr (CExecute insert_sql args) = true.

(** The calls one cycle of the consumer loop can make. *)
Definition is_cycle_event (e : Event) : Prop :=
  match e with
  | Ev (CAcquire _) _ | Ev (CRelease _) _ | Ev (CExecute _ _) _
  | Ev (CSendText _ _) _ => True
  | _ => False
  end.

(** A connection taken from the pool, and a connection given back. *)
Definition is_acquired (e : Event) : bool :=
  match e with
  | Ev (CAcquire _) true => true
  | _ => false
  end.

Definition is_released (e : Event) : bool :=
  match e with
  | Ev (CRelease _) _ => true
  | _ => false
  end.

Definition count_events (f : Event → bool) (evs : list Event) : nat :=
  length (filter (λ e, f e = true) evs).

(** A trace in which a wait for the task comes before the closing of the
    pool. *)
Definition waits_before_close (evs : list Event) : Prop :=
  ∃ pre mid post okw p ok,
    evs = pre ++ Ev CTaskWait okw :: mid ++ Ev (CPoolClose p) ok :: post.

(** The handshake of a websocket returns once: [accept] on a websocket
    whose handshake has returned raises. *)
Definition accepts_once (w : World) : Prop :=
  ∀ tr c, Ev (CAccept c) true ∈ tr → outside w tr (CAccept c) = false.

(** Every registered websocket got there through a handshake that
    returned. *)
Definition registry_accepted (w : World) : Prop :=
  ∀ c, c ∈ active w → Ev (CAccept c) true ∈ trace w.

(** The worlds the module can be in: the registry is created empty, and
    from there the functions of the module run, one after the other. *)
Inductive reachable : World → Prop :=
  | reachable_start w :
      active w = [] → reachable w
  | reachable_connect c w :
      reachable w → reachable (connect c w).2
  | reachable_disconnect c w :
      reachable w → reachable (disconnect c w).2
  | reachable_broadcast message w :
      reachable w → reachable (broadcast message w).2
  | reachable_ws_alerts c frames ending w :
      reachable w → reachable (ws_alerts c frames ending w).2
  | reachable_consumer value_deserializer json_dumps payloads w :
      reachable w →
      reachable (kafka_consumer_task value_deserializer json_dumps payloads w).2
  | reachable_recent w :
      reachable w → reachable (recent w).2
  | reachable_startup w :
      reachable w → reachable (startup w).2
  | reachable_shutdown w :
      reachable w → reachable (shutdown w).2.

(** A step that adds no connection: the registry shrinks at most, the
    trace grows at most, the oracle stays. *)
Definition quiet (w w' : World) : Prop :=
  active w' `sublist_of` active w ∧
  (∃ evs, trace w' = trace w ++ evs) ∧
  outside w' = outside w.

(** Every one of these message cycles, run one after the other, returns. *)
Fixpoint cycles_return (json_dumps : json → string) (datas : list json)
    (w : World) : Prop :=
  match datas with
  | [] => True
  | data :: rest =>
      (process_message json_dumps data w).1 = Ret tt ∧
      cycles_return json_dumps rest (process_message json_dumps data w).2
  end.

(** ** Sample worlds *)

Definition all_ok : list Event → Call → bool := λ _ _, true.

(** Every call returns, except a [send_text] to [bad]. *)
Definition send_fails_to (bad : WebSocket) : list Event → Call → bool :=
  λ _ c, match c with
         | CSendText ws _ => negb (ws =? bad)
         | _ => true
         end.

(** The store of the samples, whose events carry whole seconds: a whole
    number of seconds is recorded as it is, [True] as one second and
    [False] as none, [None] as NULL.  The theorems hold for every
    [to_timestamp]; this one only serves the samples. *)
Definition whole_seconds (v : json) : option Q :=
  match v with
  | JNum q => Some q
  | JBool b => Some (if b then 1 else 0)%Q
  | _ => None
  end.

Definition world0 (registry : list WebSocket) (o : list Event → Call → bool) : World :=
  mkWorld registry None None [] [] o whole_seconds.

Definition running (registry : list WebSocket) (o : list Event → Call → bool) : World :=
  mkWorld registry (Some (mkPool 1 5 false)) (Some Scheduled) [] [] o whole_seconds.

(** A deserializer that knows three payloads, and a printer that shows the
    type and the student of a payload. *)
Definition event_of (student : string) (seconds : Z) : gmap string json :=
  <["student_id" := JStr student]>
    (<["status" := JStr "distracted"]>
       (<["confidence" := JNum (41 # 50)]>
          (<["timestamp" := JNum (inject_Z seconds)]> ∅))).

Definition sample_deserializer (m : string) : option json :=
  if decide (m = "first") then Some (JObj (event_of "S1" 1700000000))
  else if decide (m = "second") then Some (JObj (event_of "S2" 1700000060))
  else if decide (m = "typed") then
    Some (JObj (<["type" := JStr "INFO"]> (event_of "S3" 1700000120)))
  else None.

Definition show (v : json) : string :=
  match v with
  | JStr s => s
  | _ => "?"
  end.

Definition sample_dumps (v : json) : string :=
  match v with
  | JObj d => show (dict_get d "type") +:+ "/" +:+ show (dict_get d "student_id")
  | _ => "?"
  end.

Definition insert_event (w : World) (seconds : nat) : World :=
  (execute_insert (JStr "S1") (JStr "idle") (JNum (1 # 2))
     (JNum (inject_Z (Z.of_nat seconds))) w).2.

(** The world after the INSERT of events with the given timestamps. *)
Definition after_inserts (seconds : list nat) : World :=
  foldl insert_event (running [] all_ok) seconds.

Definition typed_event : gmap string json :=
  <["type" := JStr "INFO"]> (event_of "S3" 1700000120).

Definition partial_event : gmap string json :=
  {["status" := JStr "idle"]}.

(** The store refuses every INSERT; every other call returns. *)
Definition insert_refused : list Event → Call → bool :=
  λ _ c, match c with
         | CExecute _ _ => false
         | _ => true
         end.

(** A deserializer that also knows the empty JSON list. *)
Definition list_deserializer (m : string) : option json :=
  if decide (m = "[]") then Some (JArr []) else sample_deserializer m.

(** Every call returns, except the handshake of a websocket whose handshake
    has returned before. *)
Definition accept_once_oracle : list Event → Call → bool :=
  λ tr c, match c with
          | CAccept ws =>
              negb (existsb (λ e, match e with
                                  | Ev (CAccept x) true => x =? ws
                                  | _ => false
                                  end) tr)
          | _ => true
          end.

(** * Properties *)

(** ** The monad *)

Lemma set_trace_same w : set_trace (trace w) w = w.
Proof. by destruct w. Qed.

Lemma set_active_same w : set_active (active w) w = w.
Proof. by destruct w. Qed.

Lemma call_eq c w :
  call c w = (Ret (outside w (trace w) c),
              set_trace (trace w ++ [Ev c (outside w (trace w) c)]) w).
Proof. reflexivity. Qed.

Lemma call_or_raise_eq c e w :
  call_or_raise c e w =
    (if outside w (trace w) c then Ret tt else Raise e,
     set_trace (trace w ++ [Ev c (outside w (trace w) c)]) w).
Proof.
  unfold call_or_raise, bind. rewrite call_eq.
  by destruct (outside w (trace w) c).
Qed.

(** ** The registry *)

Lemma list_remove_is_Some c l : c ∈ l → is_Some (list_remove c l).
Proof.
  induction l as [|y l IH]; intros Hin.
  - by apply elem_of_nil in Hin.
  - simpl. case_decide as Hc; [by eexists|].
    apply elem_of_cons in Hin as [?|Hin]; [done|].
    destruct (IH Hin) as [l' ->]. by eexists.
Qed.

Lemma list_remove_None c l : c ∉ l → list_remove c l = None.
Proof.
  induction l as [|y l IH]; intros Hnin; [done|].
  apply not_elem_of_cons in Hnin as [Hne Hnin].
  simpl. case_decide; [done|]. by rewrite IH.
Qed.

Lemma list_remove_app_fresh c pre l :
  c ∉ pre → list_remove c (pre ++ c :: l) = Some (pre ++ l).
Proof.
  induction pre as [|y pre IH]; intros Hnin; simpl.
  - by case_decide.
  - apply not_elem_of_cons in Hnin as [Hne Hnin].
    case_decide; [done|]. by rewrite IH.
Qed.

Lemma occurrences_cons c y l :
  occurrences c (y :: l) = (if decide (c = y) then 1 else 0) + occurrences c l.
Proof. unfold occurrences. rewrite filter_cons. by case_decide. Qed.

Lemma occurrences_zero c l : occurrences c l = 0 ↔ c ∉ l.
Proof.
  induction l as [|y l IH].
  - split; [intros _; apply not_elem_of_nil | done].
  - rewrite occurrences_cons, not_elem_of_cons. case_decide; [|simpl; tauto].
    split; [lia | tauto].
Qed.

Lemma occurrences_list_remove c x l l' :
  list_remove x l = Some l' →
  occurrences c l' = occurrences c l - (if decide (c = x) then 1 else 0).
Proof.
  revert l'. induction l as [|y l IH]; intros l' Hrem; [done|].
  simpl in Hrem. case_decide as Hxy.
  - injection Hrem as <-. subst y. rewrite occurrences_cons.
    case_decide; simpl; lia.
  - destruct (list_remove x l) as [l0|] eqn:E; [|done].
    injection Hrem as <-. rewrite !occurrences_cons, (IH l0 eq_refl).
    repeat case_decide; subst; try done; simpl; lia.
Qed.

(** [disconnect] as a function of the registry: it never raises. *)
Lemma disconnect_eq c w :
  disconnect c w = (Ret tt, set_active (default (active w) (list_remove c (active w))) w).
Proof.
  unfold disconnect. case_decide as Hin.
  - by destruct (list_remove_is_Some _ _ Hin) as [l' ->].
  - rewrite (list_remove_None _ _ Hin). simpl. by rewrite set_active_same.
Qed.

Lemma disconnect_each_eq rm w :
  disconnect_each rm w = (Ret tt, set_active (remove_each (active w) rm) w).
Proof.
  revert w. induction rm as [|c rm IH]; intros w; simpl.
  - unfold ret. by rewrite set_active_same.
  - unfold bind. rewrite disconnect_eq, IH. by destruct w.
Qed.

Lemma occurrences_remove_each c l rm :
  occurrences c (remove_each l rm) = occurrences c l - occurrences c rm.
Proof.
  revert l. induction rm as [|x rm IH]; intros l; simpl.
  - unfold occurrences at 3. simpl. lia.
  - rewrite IH, (occurrences_cons c x rm).
    destruct (list_remove x l) as [l'|] eqn:E; simpl.
    + rewrite (occurrences_list_remove c x l l' E). lia.
    + case_decide; [|lia]. subst x.
      assert (c ∉ l) as Hnin.
      { intros Hin. destruct (list_remove_is_Some _ _ Hin) as [? ?]. congruence. }
      apply occurrences_zero in Hnin. lia.
Qed.

Lemma connect_eq c w :
  connect c w =
    if outside w (trace w) (CAccept c)
    then (Ret tt, set_active (active w ++ [c])
                    (set_trace (trace w ++ [Ev (CAccept c) true]) w))
    else (Raise TransportError, set_trace (trace w ++ [Ev (CAccept c) false]) w).
Proof.
  unfold connect, bind. rewrite call_or_raise_eq.
  by destruct (outside w (trace w) (CAccept c)).
Qed.

Lemma NoDup_occurrences c l : NoDup l → occurrences c l ≤ 1.
Proof.
  induction 1 as [|x l Hx Hnd IH]; [unfold occurrences; simpl; lia|].
  rewrite occurrences_cons. case_decide; [|simpl; lia].
  subst x. apply occurrences_zero in Hx. lia.
Qed.

(** C5.  A websocket is in the registry only if its handshake returned, and
    the handshake of a websocket returns once (a second [accept] raises).
    So registering a connection that is already present does not add it a
    second time: [connect] raises at the handshake and leaves the registry
    as it was.  A connection that is absent is added at the end when its
    handshake returns.  Either way a registry without duplicates stays
    without duplicates, and still holds only websockets whose handshake
    returned. *)
Theorem connect_keeps_registry_duplicate_free (c : WebSocket) (w : World) :
  accepts_once w →
  registry_accepted w →
  NoDup (active w) →
  NoDup (active (connect c w).2) ∧
  registry_accepted (connect c w).2 ∧
  (c ∈ active w →
     (connect c w).1 = Raise TransportError ∧ active (connect c w).2 = active w) ∧
  (c ∉ active w →
     active (connect c w).2 =
       if outside w (trace w) (CAccept c) then active w ++ [c] else active w).
Proof.
  intros Honce Hacc Hnd.
  assert (c ∈ active w → outside w (trace w) (CAccept c) = false) as Hrefused.
  { intros Hin. apply Honce, Hacc, Hin. }
  rewrite connect_eq.
  destruct (outside w (trace w) (CAccept c)) eqn:Ho; simpl.
  - assert (c ∉ active w) as Hnin.
    { intros Hin. specialize (Hrefused Hin). discriminate Hrefused. }
    split_and!.
    + apply NoDup_app. split_and!; [done| |apply NoDup_singleton].
      intros x Hx Hx'. apply list_elem_of_singleton in Hx'. by subst x.
    + intros x Hx. simpl in *. apply elem_of_app in Hx as [Hx|Hx].
      * apply elem_of_app. left. by apply Hacc.
      * apply list_elem_of_singleton in Hx. subst x.
        apply elem_of_app. right. by apply list_elem_of_singleton.
    + intros Hin. contradiction.
    + done.
  - split_and!.
    + done.
    + intros x Hx. simpl in *. apply elem_of_app. left. by apply Hacc.
    + done.
    + done.
Qed.

(** C7.  On a registry without duplicates, which is every registry the
    module can build, [disconnect] is idempotent.  It never raises; on a
    connection that is absent it changes nothing; on one that is present it
    removes it, leaving the connections before and after it in place;
    afterwards the connection is absent, so a second [disconnect] does what
    the first did and no more. *)
Theorem disconnect_is_idempotent (c : WebSocket) (w : World) :
  NoDup (active w) →
  (disconnect c w).1 = Ret tt ∧
  (c ∉ active w → disconnect c w = (Ret tt, w)) ∧
  (∀ pre post, active w = pre ++ c :: post →
               active (disconnect c w).2 = pre ++ post) ∧
  (c ∉ active (disconnect c w).2) ∧
  disconnect c (disconnect c w).2 = disconnect c w.
Proof.
  intros Hnd. rewrite disconnect_eq. simpl.
  assert (c ∉ default (active w) (list_remove c (active w))) as Hgone.
  { apply occurrences_zero.
    destruct (list_remove c (active w)) as [l'|] eqn:E; simpl.
    - rewrite (occurrences_list_remove c c _ _ E), decide_True by done.
      pose proof (NoDup_occurrences c _ Hnd). lia.
    - apply occurrences_zero. intros Hin.
      destruct (list_remove_is_Some _ _ Hin) as [? ?]. congruence. }
  split_and!.
  - done.
  - intros Hnin. rewrite (list_remove_None _ _ Hnin). simpl.
    by rewrite set_active_same.
  - intros pre post Heq. rewrite Heq in Hnd |- *.
    apply NoDup_app in Hnd as (_ & Hdisj & _).
    rewrite list_remove_app_fresh; [done|].
    intros Hin. apply (Hdisj c Hin). apply list_elem_of_here.
  - exact Hgone.
  - rewrite disconnect_eq. simpl.
    rewrite (list_remove_None _ _ Hgone). simpl. by destruct w.
Qed.

(** ** Broadcast *)

Lemma send_outcomes_fst o tr message conns :
  (send_outcomes o tr message conns).*1 = conns.
Proof.
  revert tr. induction conns as [|c conns IH]; intros tr; simpl; [done|].
  by rewrite IH.
Qed.

Lemma failed_cons c ok outs :
  failed ((c, ok) :: outs) = if ok then failed outs else c :: failed outs.
Proof. unfold failed. rewrite filter_cons. by destruct ok. Qed.

Lemma delivered_cons c ok outs :
  delivered ((c, ok) :: outs) = if ok then c :: delivered outs else delivered outs.
Proof. unfold delivered. rewrite filter_cons. by destruct ok. Qed.

Lemma elem_of_failed c outs : c ∈ failed outs ↔ (c, false) ∈ outs.
Proof.
  unfold failed. rewrite list_elem_of_fmap. split.
  - intros ([c' ok] & -> & Hin). apply list_elem_of_filter in Hin as [Hok Hin].
    simpl in *. by subst ok.
  - intros Hin. exists (c, false). split; [done|].
    apply list_elem_of_filter. done.
Qed.

Lemma elem_of_delivered c outs : c ∈ delivered outs ↔ (c, true) ∈ outs.
Proof.
  unfold delivered. rewrite list_elem_of_fmap. split.
  - intros ([c' ok] & -> & Hin). apply list_elem_of_filter in Hin as [Hok Hin].
    simpl in *. by subst ok.
  - intros Hin. exists (c, true). split; [done|].
    apply list_elem_of_filter. done.
Qed.

(** The first loop, run with enough fuel from index [i]: it sends to every
    connection from [i] on, collects the failures and leaves the registry
    alone. *)
Lemma broadcast_pass_eq fuel i message acc w :
  length (active w) ≤ i + fuel →
  broadcast_pass fuel i message acc w =
    (Ret (acc ++ failed (send_outcomes (outside w) (trace w) message (drop i (active w)))),
     set_trace
       (trace w ++
          (send_event message <$>
             send_outcomes (outside w) (trace w) message (drop i (active w)))) w).
Proof.
  revert i acc w. induction fuel as [|fuel IH]; intros i acc w Hlen.
  - rewrite drop_ge by lia. simpl. unfold ret.
    by rewrite !app_nil_r, set_trace_same.
  - simpl. destruct (active w !! i) as [c|] eqn:Hi.
    + rewrite (drop_S _ _ _ Hi). simpl. unfold bind. rewrite call_eq.
      rewrite IH by (simpl; lia). simpl.
      rewrite failed_cons.
      destruct (outside w (trace w) (CSendText c message)); simpl;
        rewrite <- ?app_assoc; simpl; by destruct w.
    + apply lookup_ge_None in Hi. rewrite drop_ge by lia. simpl.
      by rewrite !app_nil_r, set_trace_same.
Qed.

(** Fuel beyond the length of the registry is never used: the loop has
    ended by then. *)
Lemma broadcast_pass_fuel fuel extra i message acc w :
  length (active w) ≤ i + fuel →
  broadcast_pass (fuel + extra) i message acc w = broadcast_pass fuel i message acc w.
Proof. intros Hlen. rewrite !broadcast_pass_eq by lia. done. Qed.

Lemma broadcast_eq message w :
  broadcast message w =
    (Ret tt,
     set_active
       (remove_each (active w)
          (failed (send_outcomes (outside w) (trace w) message (active w))))
       (set_trace
          (trace w ++
             (send_event message <$>
                send_outcomes (outside w) (trace w) message (active w))) w)).
Proof.
  unfold broadcast, bind. rewrite broadcast_pass_eq by lia.
  rewrite drop_0. simpl. by rewrite disconnect_each_eq.
Qed.

(** When no connection both fails and succeeds in a pass, removing the
    failures one by one leaves the connections that were delivered to, in
    their order. *)
Lemma remove_each_failed pre outs :
  (∀ c, c ∈ pre → (c, false) ∉ outs) →
  (∀ c, (c, true) ∈ outs → (c, false) ∈ outs → False) →
  remove_each (pre ++ outs.*1) (failed outs) = pre ++ delivered outs.
Proof.
  revert pre. induction outs as [|[c ok] outs IH]; intros pre Hpre Hcons.
  - done.
  - rewrite failed_cons, delivered_cons, fmap_cons. cbn [fst]. destruct ok.
    + replace (pre ++ c :: outs.*1) with ((pre ++ [c]) ++ outs.*1)
        by (by rewrite <- app_assoc).
      rewrite IH.
      * by rewrite <- app_assoc.
      * intros x Hx Hbad. apply elem_of_app in Hx as [Hx|Hx].
        -- apply (Hpre x Hx). by apply list_elem_of_further.
        -- apply list_elem_of_singleton in Hx. subst x.
           apply (Hcons c); [apply list_elem_of_here | by apply list_elem_of_further].
      * intros x H1 H2. apply (Hcons x); by apply list_elem_of_further.
    + cbn [remove_each]. rewrite list_remove_app_fresh.
      * cbn [default]. apply IH.
        -- intros x Hx Hbad. apply (Hpre x Hx). by apply list_elem_of_further.
        -- intros x H1 H2. apply (Hcons x); by apply list_elem_of_further.
      * intros Hin. apply (Hpre c Hin). apply list_elem_of_here.
Qed.

Lemma NoDup_fst_functional (outs : list (WebSocket * bool)) c ok1 ok2 :
  NoDup (outs.*1) → (c, ok1) ∈ outs → (c, ok2) ∈ outs → ok1 = ok2.
Proof.
  induction outs as [|[c' ok'] outs IH]; intros Hnd H1 H2.
  - by apply elem_of_nil in H1.
  - rewrite fmap_cons in Hnd. apply NoDup_cons in Hnd as [Hnin Hnd].
    apply elem_of_cons in H1 as [H1|H1]; apply elem_of_cons in H2 as [H2|H2].
    + congruence.
    + injection H1 as -> ->. exfalso. apply Hnin.
      apply list_elem_of_fmap. by exists (c', ok2).
    + injection H2 as -> ->. exfalso. apply Hnin.
      apply list_elem_of_fmap. by exists (c', ok1).
    + by apply IH.
Qed.

(** In a registry that holds every connection once, no connection can both
    fail and succeed in a pass. *)
Lemma NoDup_one_outcome message w c :
  NoDup (active w) →
  (c, true) ∈ send_outcomes (outside w) (trace w) message (active w) →
  (c, false) ∈ send_outcomes (outside w) (trace w) message (active w) →
  False.
Proof.
  intros Hnd H1 H2.
  assert (true = false); [|done].
  eapply NoDup_fst_functional; [|exact H1|exact H2].
  by rewrite send_outcomes_fst.
Qed.

(** Whatever the sends do, a broadcast takes from the registry one
    occurrence of a connection for each of its sends that raised. *)
Lemma broadcast_occurrences message w c :
  occurrences c (active (broadcast message w).2) =
    occurrences c (active w) -
    occurrences c (failed (send_outcomes (outside w) (trace w) message (active w))).
Proof. rewrite broadcast_eq. simpl. apply occurrences_remove_each. Qed.

(** C2.  In a pass in which no connection both fails and succeeds (every
    pass over a registry without duplicates is one), [broadcast] sends the
    message to every registered connection, in registry order, whatever the
    earlier sends did, and returns normally.  The registry is untouched when
    the first loop ends, with all sends done; the connections whose send
    raised are removed after that.  Afterwards the registry holds exactly
    the connections that received the message, and the next broadcast sends
    to none of the failed ones. *)
Theorem broadcast_isolates_failures (message : string) (w : World) :
  let outs := send_outcomes (outside w) (trace w) message (active w) in
  let w' := (broadcast message w).2 in
  (∀ c, (c, true) ∈ outs → (c, false) ∈ outs → False) →
  outs.*1 = active w ∧
  (∃ w_pass,
     broadcast_pass (length (active w)) 0 message [] w = (Ret (failed outs), w_pass) ∧
     trace w_pass = trace w ++ (send_event message <$> outs) ∧
     active w_pass = active w ∧
     broadcast message w = disconnect_each (failed outs) w_pass) ∧
  (broadcast message w).1 = Ret tt ∧
  trace w' = trace w ++ (send_event message <$> outs) ∧
  active w' = delivered outs ∧
  (∀ c, c ∈ failed outs → c ∉ active w') ∧
  (∀ c, c ∈ active w → c ∉ failed outs →
     c ∈ active w' ∧ Ev (CSendText c message) true ∈ trace w') ∧
  (∀ message',
     ∃ outs', trace (broadcast message' w').2 = trace w' ++ (send_event message' <$> outs') ∧
              outs'.*1 = active w' ∧
              ∀ c, c ∈ failed outs → c ∉ outs'.*1).
Proof.
  intros outs w' Hone.
  assert (outs.*1 = active w) as Hfst by apply send_outcomes_fst.
  assert (active w' = delivered outs) as Hact.
  { unfold w'. rewrite broadcast_eq. simpl.
    pose proof (remove_each_failed [] outs) as Hrem. simpl in Hrem.
    rewrite Hfst in Hrem. apply Hrem; [|exact Hone].
    intros c Hc. by apply elem_of_nil in Hc. }
  assert (trace w' = trace w ++ (send_event message <$> outs)) as Htr.
  { unfold w'. by rewrite broadcast_eq. }
  assert (∀ c, c ∈ failed outs → c ∉ active w') as Hgone.
  { intros c Hc. rewrite Hact, elem_of_delivered.
    apply elem_of_failed in Hc. intros Hd. exact (Hone c Hd Hc). }
  split_and!.
  - exact Hfst.
  - eexists. split_and!.
    + rewrite broadcast_pass_eq by lia. rewrite drop_0. reflexivity.
    + done.
    + done.
    + unfold broadcast, bind. rewrite broadcast_pass_eq by lia.
      by rewrite drop_0.
  - by rewrite broadcast_eq.
  - exact Htr.
  - exact Hact.
  - exact Hgone.
  - intros c Hin Hnf.
    assert ((c, true) ∈ outs) as Hd.
    { rewrite <- Hfst in Hin. apply list_elem_of_fmap in Hin as ([c' ok] & -> & Hin).
      destruct ok; [done|]. exfalso. apply Hnf, elem_of_failed. done. }
    split.
    + rewrite Hact. by apply elem_of_delivered.
    + rewrite Htr. apply elem_of_app. right.
      apply list_elem_of_fmap. by exists (c, true).
  - intros message'. eexists. split_and!.
    + rewrite (broadcast_eq message' w'). simpl. reflexivity.
    + apply send_outcomes_fst.
    + intros c Hc. rewrite send_outcomes_fst. by apply Hgone.
Qed.

(** Three registered connections, the send to the second raises. *)
Lemma broadcast_three_one_fails :
  let w := world0 [1; 2; 3] (send_fails_to 2) in
  (broadcast "alert" w).1 = Ret tt ∧
  trace (broadcast "alert" w).2 =
    [Ev (CSendText 1 "alert") true; Ev (CSendText 2 "alert") false;
     Ev (CSendText 3 "alert") true] ∧
  active (broadcast "alert" w).2 = [1; 3].
Proof.
  intros w.
  assert (∀ c, (c, true) ∈ send_outcomes (outside w) (trace w) "alert" (active w) →
               (c, false) ∈ send_outcomes (outside w) (trace w) "alert" (active w) →
               False) as Hone.
  { intros c. apply (NoDup_one_outcome "alert" w c).
    apply (bool_decide_unpack _). vm_compute. exact I. }
  destruct (broadcast_isolates_failures "alert" w Hone)
    as (_ & _ & Hret & Htr & Hact & _).
  split_and!; [exact Hret | exact Htr | exact Hact].
Defined.

(** ** One message *)

Section MessageProperties.

Variable json_dumps : json → string.

(** The loop body on a dict, outcome by outcome. *)
Lemma process_message_dict d w :
  process_message json_dumps (JObj d) w =
    match db w with
    | None => (Raise AttributeError, w)
    | Some p =>
        if closed p || negb (outside w (trace w) (CAcquire p))
        then (Raise StoreError, set_trace (trace w ++ [Ev (CAcquire p) false]) w)
        else
          if outside w (trace w ++ [Ev (CAcquire p) true])
               (CExecute insert_sql (insert_args d))
          then broadcast (json_dumps (alert_of d))
                 (set_table (table w ++ [row_of w d])
                    (set_trace
                       (trace w ++ [Ev (CAcquire p) true;
                                    Ev (CExecute insert_sql (insert_args d)) true;
                                    Ev (CRelease p) true]) w))
          else (Raise StoreError,
                set_trace
                  (trace w ++ [Ev (CAcquire p) true;
                               Ev (CExecute insert_sql (insert_args d)) false;
                               Ev (CRelease p) true]) w)
    end.
Proof.
  unfold process_message, with_connection, bind, state_db.
  destruct (db w) as [p|] eqn:Hdb; [|done].
  destruct (closed p) eqn:Hcl; simpl.
  { done. }
  rewrite call_or_raise_eq.
  destruct (outside w (trace w) (CAcquire p)) eqn:Hacq; simpl; [|done].
  unfold try_finally, bind, get, ret, execute_insert, bind.
  rewrite call_or_raise_eq. simpl.
  fold (insert_args d).
  destruct (outside w (trace w ++ [Ev (CAcquire p) true])
              (CExecute insert_sql (insert_args d))) eqn:Hex; simpl.
  - unfold alert_of, row_of. f_equal. destruct w; simpl.
    by rewrite <- !app_assoc.
  - destruct w; simpl. by rewrite <- !app_assoc.
Qed.

(** The loop body on a value that is no dict: [get] raises inside the
    [acquire] block, nothing is inserted and nothing is sent. *)
Lemma process_message_not_dict data w :
  (∀ d, data ≠ JObj d) →
  process_message json_dumps data w =
    match db w with
    | None => (Raise AttributeError, w)
    | Some p =>
        if closed p || negb (outside w (trace w) (CAcquire p))
        then (Raise StoreError, set_trace (trace w ++ [Ev (CAcquire p) false]) w)
        else (Raise AttributeError,
              set_trace (trace w ++ [Ev (CAcquire p) true; Ev (CRelease p) true]) w)
    end.
Proof.
  intros Hnd.
  unfold process_message, with_connection, bind, state_db.
  destruct (db w) as [p|] eqn:Hdb; [|done].
  destruct (closed p) eqn:Hcl; simpl.
  { done. }
  rewrite call_or_raise_eq.
  destruct (outside w (trace w) (CAcquire p)) eqn:Hacq; simpl; [|done].
  unfold try_finally, bind, get, raise.
  destruct data; try (destruct w; simpl; by rewrite <- !app_assoc).
  by destruct (Hnd d).
Qed.




(** C9.  The dict that is broadcast for an event is the event's dict laid
    over the entry ["type": "ALERT"]: under the key ["type"] it carries the
    event's own value when the event has one and ["ALERT"] only when it has
    none, and under every other key what the event has.  Every send made
    while the event is processed carries the serialization of that dict. *)
Theorem alert_type_is_overridden (d : gmap string json) (w : World) :
  let merged := dict_update {["type" := JStr "ALERT"]} d in
  alert_payload (JObj d) w = (Ret (JObj merged), w) ∧
  (∀ v, d !! "type" = Some v → merged !! "type" = Some v) ∧
  (d !! "type" = None → merged !! "type" = Some (JStr "ALERT")) ∧
  (∀ key, key ≠ "type" → merged !! key = d !! key) ∧
  ∃ evs,
    trace (process_message json_dumps (JObj d) w).2 = trace w ++ evs ∧
    ∀ c message ok,
      Ev (CSendText c message) ok ∈ evs → message = json_dumps (JObj merged).
Proof.
  intros merged. subst merged. unfold dict_update.
  split_and!.
  - done.
  - intros v Hv. apply lookup_union_Some_l. exact Hv.
  - intros Hnone. rewrite lookup_union_r by exact Hnone.
    apply lookup_singleton_eq.
  - intros key Hkey. destruct (d !! key) as [v|] eqn:Hd.
    + apply lookup_union_Some_l. exact Hd.
    + rewrite lookup_union_r by exact Hd. by apply lookup_singleton_ne.
  - rewrite process_message_dict.
    destruct (db w) as [p|].
    2:{ exists []. rewrite app_nil_r. split; [done|].
        intros c message ok Hin. by apply elem_of_nil in Hin. }
    destruct (closed p || negb (outside w (trace w) (CAcquire p))).
    { eexists. split; [reflexivity|]. intros c message ok Hin.
      repeat (apply elem_of_cons in Hin as [Hin|Hin]; [discriminate Hin|]).
      by apply elem_of_nil in Hin. }
    destruct (outside w (trace w ++ [Ev (CAcquire p) true])
                (CExecute insert_sql (insert_args d))).
    + rewrite broadcast_eq. simpl. eexists. split.
      { rewrite <- app_assoc. reflexivity. }
      intros c message ok Hin. apply elem_of_app in Hin as [Hin|Hin].
      * repeat (apply elem_of_cons in Hin as [Hin|Hin]; [discriminate Hin|]).
        by apply elem_of_nil in Hin.
      * apply list_elem_of_fmap in Hin as ([c' ok'] & Heq & _).
        unfold send_event in Heq. simpl in Heq. by injection Heq as _ -> _.
    + eexists. split; [reflexivity|]. intros c message ok Hin.
      repeat (apply elem_of_cons in Hin as [Hin|Hin]; [discriminate Hin|]).
      by apply elem_of_nil in Hin.
Qed.

(** C10, as amended.  Once a connection is acquired, the INSERT is issued
    for every event that is a dict, whichever keys it has: each of the four
    arguments is the value under its key, or [None] when the key is
    missing.  The module checks nothing before the call; when the call
    returns, the row, with NULL in the three plain columns for what was
    missing, is in the table.  An event that is not a dict gets no INSERT:
    the first [get] raises [AttributeError] and the connection is given
    back. *)
Theorem insert_without_validation (data : json) (p : Pool) (w : World) :
  db w = Some p →
  closed p = false →
  outside w (trace w) (CAcquire p) = true →
  let r := process_message json_dumps data w in
  match data with
  | JObj d =>
      let args := [default JNull (d !! "student_id"); default JNull (d !! "status");
                   default JNull (d !! "confidence"); default JNull (d !! "timestamp")] in
      ∃ ok rest,
        trace r.2 = trace w ++ [Ev (CAcquire p) true;
                                Ev (CExecute insert_sql args) ok;
                                Ev (CRelease p) true] ++ rest ∧
        ok = outside w (trace w ++ [Ev (CAcquire p) true]) (CExecute insert_sql args) ∧
        (ok = true →
           table r.2 = table w ++
             [mkRow (default JNull (d !! "student_id")) (default JNull (d !! "status"))
                    (default JNull (d !! "confidence"))
                    (to_timestamp w (default JNull (d !! "timestamp")))]) ∧
        (ok = false → r.1 = Raise StoreError ∧ table r.2 = table w)
  | _ =>
      r = (Raise AttributeError,
           set_trace (trace w ++ [Ev (CAcquire p) true; Ev (CRelease p) true]) w)
  end.
Proof.
  intros Hdb Hcl Hacq r. subst r.
  destruct data as [| | | | |d];
    try (rewrite process_message_not_dict by (intros d; discriminate);
         by rewrite Hdb, Hcl, Hacq).
  rewrite process_message_dict, Hdb, Hcl, Hacq. simpl.
  unfold insert_args, dict_get, row_of, dict_get.
  destruct (outside w (trace w ++ [Ev (CAcquire p) true])
              (CExecute insert_sql
                 [default JNull (d !! "student_id"); default JNull (d !! "status");
                  default JNull (d !! "confidence"); default JNull (d !! "timestamp")]))
    eqn:Hex.
  - rewrite broadcast_eq. simpl. eexists true, _. split_and!.
    + rewrite <- app_assoc. reflexivity.
    + done.
    + done.
    + discriminate.
  - exists false, []. split_and!; try done.
Qed.

End MessageProperties.

(** ** The stream *)

Section StreamProperties.

Variable value_deserializer : string → option json.
Variable json_dumps : json → string.

Lemma consume_undecodable pre bad post w :
  value_deserializer bad = None →
  consume value_deserializer json_dumps (pre ++ bad :: post) w =
    match consume value_deserializer json_dumps pre w with
    | (Ret _, w1) => (Raise DeserializationError, w1)
    | (Raise e, w1) => (Raise e, w1)
    end.
Proof.
  intros Hbad. revert w. induction pre as [|m pre IH]; intros w; simpl.
  - by rewrite Hbad.
  - destruct (value_deserializer m) as [data|]; [|done].
    unfold bind. destruct (process_message json_dumps data w) as [[[]|e] w1].
    + apply IH.
    + done.
Qed.

(** X7.  The loop runs its body on the deserialized payloads one after the
    other, in delivery order, and stops at the first payload that is refused
    or whose body raises.  The world it leaves is the world left by the
    bodies it ran, which are those of a prefix of the payloads, and all of
    them but possibly the last returned.  Either the prefix is all the
    payloads, every body returned and the loop returns; or every body
    returned, the payload after the prefix is refused and the loop raises
    for it; or the last body raised and the loop raises what it raised. *)
Lemma consume_cycle_by_cycle payloads w :
  let r := consume value_deserializer json_dumps payloads w in
  let body := λ w0 data, (process_message json_dumps data w0).2 in
  ∃ datas,
    length datas ≤ length payloads ∧
    (∀ i data, datas !! i = Some data →
       ∃ m, payloads !! i = Some m ∧ value_deserializer m = Some data) ∧
    r.2 = foldl body w datas ∧
    ((r.1 = Ret tt ∧ length datas = length payloads ∧
      cycles_return json_dumps datas w)
     ∨ (r.1 = Raise DeserializationError ∧
        cycles_return json_dumps datas w ∧
        ∃ m, payloads !! length datas = Some m ∧ value_deserializer m = None)
     ∨ (∃ init data e,
          datas = init ++ [data] ∧
          cycles_return json_dumps init w ∧
          process_message json_dumps data (foldl body w init) = (Raise e, r.2) ∧
          r.1 = Raise e)).
Proof.
  revert w. induction payloads as [|m rest IH]; intros w.
  - exists []. split_and!; [done | intros i data Hi; by destruct i | done |].
    left. done.
  - simpl. destruct (value_deserializer m) as [data|] eqn:Hm.
    2:{ exists []. split_and!; [simpl; lia | intros i data Hi; by destruct i | done |].
        right. left. split_and!; [done | done |]. by exists m. }
    unfold bind.
    destruct (process_message json_dumps data w) as [[[]|e] w1] eqn:Hp.
    + destruct (IH w1) as (datas & Hlen & Hdes & Hw & Hend).
      exists (data :: datas). split_and!.
      * simpl. lia.
      * intros [|i] data' Hi; simpl in *.
        -- injection Hi as <-. by exists m.
        -- by apply Hdes.
      * simpl. by rewrite Hp.
      * destruct Hend as [(Hret & Hall & Hcyc)|[(Hret & Hcyc & m' & Hm' & Hbad)
                                                |(init & d' & e' & -> & Hcyc & Hlast & Hret)]].
        -- left. split_and!; [done | simpl; lia |]. simpl. by rewrite Hp.
        -- right. left. split_and!; [done | simpl; by rewrite Hp |].
           by exists m'.
        -- right. right. exists (data :: init), d', e'. split_and!.
           ++ done.
           ++ simpl. by rewrite Hp.
           ++ simpl. by rewrite Hp.
           ++ done.
    + exists [data]. split_and!.
      * simpl. lia.
      * intros [|i] data' Hi; simpl in *; [|by destruct i].
        injection Hi as <-. by exists m.
      * simpl. by rewrite Hp.
      * right. right. exists [], data, e. split_and!; done.
Qed.

(** C1, as amended.  A payload that the deserializer refuses is not
    skipped: the exception leaves the loop, the consumer is stopped and the
    task ends with the exception.  The run ends in the world in which the
    run over the payloads before the refused one ends, so those are
    processed as if the stream had ended there, and the payloads after it
    are never looked at. *)
Theorem undecodable_payload_ends_consumer (pre post : list string) (bad : string)
    (w : World) :
  value_deserializer bad = None →
  let r := kafka_consumer_task value_deserializer json_dumps (pre ++ bad :: post) w in
  let r0 := kafka_consumer_task value_deserializer json_dumps pre w in
  r.2 = r0.2 ∧
  r.1 = match r0.1 with
        | Ret _ => Raise DeserializationError
        | Raise e => Raise e
        end ∧
  (∃ e, r.1 = Raise e) ∧
  (outside w (trace w) CConsumerStart = true →
   ∃ ok, last (trace r.2) = Some (Ev CConsumerStop ok)).
Proof.
  intros Hbad r r0. subst r r0.
  unfold kafka_consumer_task, bind. rewrite call_or_raise_eq.
  destruct (outside w (trace w) CConsumerStart) eqn:Hstart; simpl.
  2:{ split_and!; [done | done | by eexists | discriminate]. }
  unfold try_finally. rewrite (consume_undecodable _ _ _ _ Hbad).
  destruct (consume value_deserializer json_dumps pre
              (set_trace (trace w ++ [Ev CConsumerStart true]) w)) as [[[]|e] w1];
    rewrite call_or_raise_eq;
    destruct (outside w1 (trace w1) CConsumerStop); simpl;
    (split_and!; [done | done | by eexists | intros _; rewrite last_snoc; by eexists]).
Qed.

End StreamProperties.

(** ** Lifecycle *)

Lemma startup_eq w :
  startup w =
    if outside w (trace w) (CCreatePool 1 5)
    then (Ret tt,
          set_kafka_task (Some Scheduled)
            (set_trace (trace w ++ [Ev (CCreatePool 1 5) true; Ev CCreateTask true])
               (set_db (Some (mkPool 1 5 false)) w)))
    else (Raise StoreError, set_trace (trace w ++ [Ev (CCreatePool 1 5) false]) w).
Proof.
  unfold startup, bind. rewrite call_or_raise_eq.
  destruct (outside w (trace w) (CCreatePool 1 5)); simpl; [|done].
  destruct w; simpl. by rewrite <- !app_assoc.
Qed.

Lemma cancel_task_eq w :
  cancel_task w =
    match kafka_task w with
    | None => (Raise AttributeError, w)
    | Some _ =>
        (Ret tt,
         set_kafka_task (Some CancelRequested)
           (set_trace (trace w ++ [Ev CTaskCancel true]) w))
    end.
Proof.
  unfold cancel_task, bind, state_kafka_task.
  by destruct (kafka_task w).
Qed.

Lemma close_pool_eq w :
  close_pool w =
    match db w with
    | None => (Raise AttributeError, w)
    | Some p =>
        if outside w (trace w) (CPoolClose p)
        then (Ret tt,
              set_db (Some (mkPool (min_size p) (max_size p) true))
                (set_trace (trace w ++ [Ev (CPoolClose p) true]) w))
        else (Raise StoreError, set_trace (trace w ++ [Ev (CPoolClose p) false]) w)
    end.
Proof.
  unfold close_pool, bind, state_db.
  destruct (db w) as [p|]; [|done].
  rewrite call_or_raise_eq.
  by destruct (outside w (trace w) (CPoolClose p)).
Qed.

Lemma recent_eq w :
  recent w =
    match db w with
    | None => (Raise AttributeError, w)
    | Some p =>
        if closed p || negb (outside w (trace w) (CAcquire p))
        then (Raise StoreError, set_trace (trace w ++ [Ev (CAcquire p) false]) w)
        else
          if outside w (trace w ++ [Ev (CAcquire p) true]) (CFetch select_sql)
          then (Ret (order_by_ts_desc_limit 20 (table w)),
                set_trace (trace w ++ [Ev (CAcquire p) true;
                                       Ev (CFetch select_sql) true;
                                       Ev (CRelease p) true]) w)
          else (Raise StoreError,
                set_trace (trace w ++ [Ev (CAcquire p) true;
                                       Ev (CFetch select_sql) false;
                                       Ev (CRelease p) true]) w)
    end.
Proof.
  unfold recent, with_connection, bind, state_db.
  destruct (db w) as [p|] eqn:Hdb; [|done].
  destruct (closed p) eqn:Hcl; simpl.
  { done. }
  rewrite call_or_raise_eq.
  destruct (outside w (trace w) (CAcquire p)) eqn:Hacq; simpl; [|done].
  unfold try_finally, fetch_recent, bind. rewrite call_eq. simpl.
  destruct (outside w (trace w ++ [Ev (CAcquire p) true]) (CFetch select_sql));
    simpl; unfold ret; destruct w; simpl; by rewrite <- !app_assoc.
Qed.

(** C4, as amended.  [shutdown] asks the consumer task to stop and then
    closes the pool, and makes no other call: between the cancellation and
    the closing of the pool it does not wait for the task.  The calls it
    adds to the trace are the cancellation and the closing, in this order;
    a wait for the task is in the trace afterwards only if it was there
    before. *)
Theorem shutdown_cancels_then_closes (t : task_status) (p : Pool) (w : World) :
  kafka_task w = Some t →
  db w = Some p →
  let r := shutdown w in
  ∃ ok,
    trace r.2 = trace w ++ [Ev CTaskCancel true; Ev (CPoolClose p) ok] ∧
    ok = outside w (trace w ++ [Ev CTaskCancel true]) (CPoolClose p) ∧
    (∀ okw, Ev CTaskWait okw ∈ trace r.2 → Ev CTaskWait okw ∈ trace w) ∧
    (ok = true →
       r.1 = Ret tt ∧ db r.2 = Some (mkPool (min_size p) (max_size p) true)) ∧
    (ok = false → r.1 = Raise StoreError ∧ db r.2 = Some p).
Proof.
  intros Ht Hdb r. subst r.
  unfold shutdown, bind. rewrite cancel_task_eq, Ht. simpl.
  rewrite close_pool_eq. simpl. rewrite Hdb.
  exists (outside w (trace w ++ [Ev CTaskCancel true]) (CPoolClose p)).
  assert (∀ ok okw,
            Ev CTaskWait okw ∈ (trace w ++ [Ev CTaskCancel true]) ++ [Ev (CPoolClose p) ok] →
            Ev CTaskWait okw ∈ trace w) as Hwait.
  { intros ok okw Hin.
    apply elem_of_app in Hin as [Hin|Hin]; [apply elem_of_app in Hin as [Hin|Hin]|].
    - exact Hin.
    - apply list_elem_of_singleton in Hin. discriminate Hin.
    - apply list_elem_of_singleton in Hin. discriminate Hin. }
  destruct (outside w (trace w ++ [Ev CTaskCancel true]) (CPoolClose p)); simpl.
  - split_and!; try done.
    + by rewrite <- app_assoc.
    + apply Hwait.
  - split_and!; try done.
    + by rewrite <- app_assoc.
    + apply Hwait.
Qed.

(** C4: with the task scheduled and the pool open, [shutdown] cancels and
    closes the pool, and no wait for the task comes before the closing. *)
Lemma shutdown_does_not_wait :
  let r := shutdown (running [] all_ok) in
  r.1 = Ret tt ∧
  trace r.2 = [Ev CTaskCancel true; Ev (CPoolClose (mkPool 1 5 false)) true] ∧
  db r.2 = Some (mkPool 1 5 true) ∧
  ¬ waits_before_close (trace r.2).
Proof.
  simpl. split_and!; try done.
  intros (pre & mid & post & okw & p & ok & Heq).
  destruct pre as [|x [|y [|z pre]]]; simpl in Heq; discriminate Heq.
Qed.

Lemma shutdown_of_running_world :
  let w := running [] all_ok in
  ∃ ok, trace (shutdown w).2 =
          trace w ++ [Ev CTaskCancel true; Ev (CPoolClose (mkPool 1 5 false)) ok].
Proof.
  intros w.
  destruct (shutdown_cancels_then_closes Scheduled (mkPool 1 5 false) w eq_refl eq_refl)
    as (ok & Htr & _).
  by exists ok.
Defined.

(** C8.  [startup] creates the pool with a minimum of 1 and a maximum of 5
    connections and only then launches the consumer task; when the pool
    cannot be created no task is launched.  The loop body of the consumer
    and the recent-history route both take their connection from the pool
    kept in [app.state.db], and both raise when there is none. *)
Theorem pool_created_first_and_shared (w : World) :
  (if outside w (trace w) (CCreatePool 1 5)
   then (startup w).1 = Ret tt ∧
        trace (startup w).2 = trace w ++ [Ev (CCreatePool 1 5) true; Ev CCreateTask true] ∧
        (∃ p, db (startup w).2 = Some p ∧
              min_size p = 1 ∧ max_size p = 5 ∧ closed p = false) ∧
        kafka_task (startup w).2 = Some Scheduled
   else (startup w).1 = Raise StoreError ∧
        trace (startup w).2 = trace w ++ [Ev (CCreatePool 1 5) false] ∧
        db (startup w).2 = db w ∧
        kafka_task (startup w).2 = kafka_task w) ∧
  (∀ (json_dumps : json → string) (data : json),
     match db w with
     | Some p => ∃ ok rest,
         trace (process_message json_dumps data w).2 = trace w ++ Ev (CAcquire p) ok :: rest
     | None => process_message json_dumps data w = (Raise AttributeError, w)
     end) ∧
  match db w with
  | Some p => ∃ ok rest, trace (recent w).2 = trace w ++ Ev (CAcquire p) ok :: rest
  | None => recent w = (Raise AttributeError, w)
  end.
Proof.
  split_and!.
  - rewrite startup_eq. destruct (outside w (trace w) (CCreatePool 1 5)); simpl.
    + split_and!; try done. by eexists.
    + done.
  - intros json_dumps data.
    assert ((∃ d, data = JObj d) ∨ (∀ d, data ≠ JObj d)) as [[d ->]|Hnd].
    { destruct data; try (right; intros ?; discriminate). left. by eexists. }
    + rewrite process_message_dict. destruct (db w) as [p|]; [|done].
      destruct (closed p || negb (outside w (trace w) (CAcquire p))).
      { by eexists false, []. }
      destruct (outside w (trace w ++ [Ev (CAcquire p) true])
                  (CExecute insert_sql (insert_args d))).
      * rewrite broadcast_eq. simpl. eexists true, _.
        rewrite <- app_assoc. reflexivity.
      * by eexists true, _.
    + rewrite (process_message_not_dict _ _ _ Hnd). destruct (db w) as [p|]; [|done].
      destruct (closed p || negb (outside w (trace w) (CAcquire p))).
      { by eexists false, []. }
      by eexists true, _.
  - rewrite recent_eq. destruct (db w) as [p|]; [|done].
    destruct (closed p || negb (outside w (trace w) (CAcquire p))).
    { by eexists false, []. }
    destruct (outside w (trace w ++ [Ev (CAcquire p) true]) (CFetch select_sql));
      by eexists true, _.
Qed.

(** ** Recent history *)

#[global] Instance ts_desc_total : Total ts_desc.
Proof.
  intros r1 r2. unfold ts_desc.
  destruct (ts r1) as [a|], (ts r2) as [b|]; try tauto.
  destruct (Qlt_le_dec a b) as [Hlt|Hle]; [right | left; exact Hle].
  apply Qlt_le_weak, Hlt.
Qed.

#[global] Instance ts_desc_trans : Transitive ts_desc.
Proof.
  intros r1 r2 r3. unfold ts_desc.
  destruct (ts r1) as [a|], (ts r2) as [b|], (ts r3) as [c|]; try tauto.
  intros Hba Hcb. exact (Qle_trans _ _ _ Hcb Hba).
Qed.

Lemma order_by_ts_desc_limit_length n rows :
  length (order_by_ts_desc_limit n rows) = n `min` length rows.
Proof.
  unfold order_by_ts_desc_limit.
  by rewrite length_take, (Permutation_length (merge_sort_Permutation ts_desc rows)).
Qed.

Lemma order_by_ts_desc_limit_sorted n rows :
  StronglySorted ts_desc (order_by_ts_desc_limit n rows).
Proof.
  unfold order_by_ts_desc_limit.
  apply (StronglySorted_app_1_l ts_desc _ (drop n (merge_sort ts_desc rows))).
  rewrite take_drop. apply StronglySorted_merge_sort; apply _.
Qed.

(** The rows the LIMIT cuts off come, in the order of the query, after every
    row that is returned. *)
Lemma order_by_ts_desc_limit_rest n rows :
  order_by_ts_desc_limit n rows ++ drop n (merge_sort ts_desc rows) ≡ₚ rows ∧
  ∀ r1 r2, r1 ∈ order_by_ts_desc_limit n rows →
           r2 ∈ drop n (merge_sort ts_desc rows) → ts_desc r1 r2.
Proof.
  unfold order_by_ts_desc_limit. split.
  - rewrite take_drop. apply merge_sort_Permutation.
  - intros r1 r2 H1 H2.
    apply (StronglySorted_app_1_elem_of ts_desc
             (take n (merge_sort ts_desc rows)) (drop n (merge_sort ts_desc rows)));
      [|done|done].
    rewrite take_drop. apply StronglySorted_merge_sort; apply _.
Qed.

(** C6.  When the pool hands out a connection and the query runs, the
    recent-history route returns, without changing the table, at most 20
    rows, all of them when the table has at most 20: they are rows of the
    table, in descending order of [ts], and every row of the table that is
    left out is at or after each returned row in that order (for two rows
    with a timestamp: it is not later).  On an empty table the result is the
    empty list, not an error; on a table of 25 rows the result has exactly
    20 rows and 5 are left out. *)
Theorem recent_returns_latest_twenty (p : Pool) (w : World) :
  db w = Some p →
  closed p = false →
  outside w (trace w) (CAcquire p) = true →
  outside w (trace w ++ [Ev (CAcquire p) true]) (CFetch select_sql) = true →
  ∃ rows others,
    (recent w).1 = Ret rows ∧
    table (recent w).2 = table w ∧
    length rows = 20 `min` length (table w) ∧
    StronglySorted ts_desc rows ∧
    rows ++ others ≡ₚ table w ∧
    (∀ r1 r2, r1 ∈ rows → r2 ∈ others → ts_desc r1 r2) ∧
    (∀ r1 r2 a b, r1 ∈ rows → r2 ∈ others →
                  ts r1 = Some a → ts r2 = Some b → (b <= a)%Q) ∧
    (table w = [] → rows = []) ∧
    (length (table w) = 25 → length rows = 20 ∧ length others = 5).
Proof.
  intros Hdb Hcl Hacq Hfetch.
  rewrite recent_eq, Hdb, Hcl, Hacq, Hfetch. simpl.
  destruct (order_by_ts_desc_limit_rest 20 (table w)) as [Hperm Hrest].
  exists (order_by_ts_desc_limit 20 (table w)), (drop 20 (merge_sort ts_desc (table w))).
  split_and!.
  - done.
  - done.
  - apply order_by_ts_desc_limit_length.
  - apply order_by_ts_desc_limit_sorted.
  - exact Hperm.
  - exact Hrest.
  - intros r1 r2 a b H1 H2 Ha Hb. specialize (Hrest r1 r2 H1 H2).
    unfold ts_desc in Hrest. by rewrite Ha, Hb in Hrest.
  - intros Hnil. apply length_zero_iff_nil.
    rewrite order_by_ts_desc_limit_length, Hnil. done.
  - intros H25.
    pose proof (order_by_ts_desc_limit_length 20 (table w)) as Hlen.
    apply Permutation_length in Hperm. rewrite length_app in Hperm.
    rewrite H25 in Hlen, Hperm. simpl in Hlen. lia.
Qed.

(** * Instances *)

(** C1: with an undecodable payload between two good ones, the second good
    one is neither inserted nor sent. *)
Lemma undecodable_payload_blocks_later_events :
  let r := kafka_consumer_task sample_deserializer sample_dumps
             ["first"; "garbage"; "second"] (running [1] all_ok) in
  sample_deserializer "first" = Some (JObj (event_of "S1" 1700000000)) ∧
  sample_deserializer "garbage" = None ∧
  sample_deserializer "second" = Some (JObj (event_of "S2" 1700000060)) ∧
  r.1 = Raise DeserializationError ∧
  table r.2 = [row_of (running [1] all_ok) (event_of "S1" 1700000000)] ∧
  (row_of (running [1] all_ok) (event_of "S2" 1700000060) ∉ table r.2) ∧
  (∀ c ok,
     Ev (CSendText c (sample_dumps (alert_of (event_of "S2" 1700000060)))) ok
       ∉ trace r.2).
Proof.
  intros r. split_and!.
  - reflexivity.
  - reflexivity.
  - reflexivity.
  - vm_compute. reflexivity.
  - vm_compute. reflexivity.
  - intros Hin. vm_compute in Hin.
    apply elem_of_cons in Hin as [Hin|Hin]; [discriminate Hin|].
    by apply elem_of_nil in Hin.
  - intros c ok Hin. vm_compute in Hin.
    repeat (apply elem_of_cons in Hin as [Hin|Hin]; [discriminate Hin|]).
    by apply elem_of_nil in Hin.
Qed.

Lemma undecodable_payload_after_first :
  let r := kafka_consumer_task sample_deserializer sample_dumps
             ["first"; "garbage"; "second"] (running [1] all_ok) in
  let r0 := kafka_consumer_task sample_deserializer sample_dumps
              ["first"] (running [1] all_ok) in
  r.2 = r0.2 ∧ ∃ e, r.1 = Raise e.
Proof.
  intros r r0.
  destruct (undecodable_payload_ends_consumer sample_deserializer sample_dumps
              ["first"] ["second"] "garbage" (running [1] all_ok) eq_refl)
    as (Hw & _ & He & _).
  split; [exact Hw | exact He].
Defined.

Lemma accept_once_oracle_accepts_once registry :
  accepts_once (world0 registry accept_once_oracle).
Proof.
  intros tr c Hin. simpl. unfold accept_once_oracle.
  apply negb_false_iff, existsb_exists.
  exists (Ev (CAccept c) true). split.
  - by apply list_elem_of_In.
  - apply Nat.eqb_refl.
Qed.

Lemma connect_of_registered_connection :
  let w := (connect 4 (world0 [] accept_once_oracle)).2 in
  active w = [4] ∧
  (connect 4 w).1 = Raise TransportError ∧
  active (connect 4 w).2 = [4] ∧
  active (connect 5 w).2 = [4; 5] ∧
  NoDup (active (connect 5 w).2).
Proof.
  intros w.
  assert (accepts_once w) as Honce by apply (accept_once_oracle_accepts_once []).
  assert (registry_accepted w) as Hacc.
  { intros x Hx. apply list_elem_of_singleton in Hx. subst x.
    apply list_elem_of_here. }
  assert (NoDup (active w)) as Hnd
    by (apply (bool_decide_unpack _); vm_compute; exact I).
  destruct (connect_keeps_registry_duplicate_free 4 w Honce Hacc Hnd)
    as (_ & _ & Hpresent & _).
  destruct (connect_keeps_registry_duplicate_free 5 w Honce Hacc Hnd)
    as (Hnd5 & _ & _ & Habsent).
  destruct Hpresent as [Hraise Hsame]; [apply list_elem_of_here|].
  split_and!; [done | exact Hraise | exact Hsame | | exact Hnd5].
  apply Habsent. apply (bool_decide_unpack _). vm_compute. exact I.
Defined.

Lemma disconnect_twice_of_registered_connection :
  let w := world0 [7; 8] all_ok in
  disconnect 9 w = (Ret tt, w) ∧
  active (disconnect 7 w).2 = [8] ∧
  disconnect 7 (disconnect 7 w).2 = disconnect 7 w.
Proof.
  intros w.
  assert (NoDup (active w)) as Hnd
    by (apply (bool_decide_unpack _); vm_compute; exact I).
  destruct (disconnect_is_idempotent 9 w Hnd) as (_ & Habsent & _).
  destruct (disconnect_is_idempotent 7 w Hnd) as (_ & _ & Hfirst & _ & Htwice).
  split_and!.
  - apply Habsent. apply (bool_decide_unpack _). vm_compute. exact I.
  - exact (Hfirst [] [8] eq_refl).
  - exact Htwice.
Defined.


(** C10: a payload that is parseable but no dict gets no INSERT. *)
Lemma parseable_list_gets_no_insert :
  let r := kafka_consumer_task list_deserializer sample_dumps ["[]"]
             (running [1] all_ok) in
  list_deserializer "[]" = Some (JArr []) ∧
  r.1 = Raise AttributeError ∧
  table r.2 = [] ∧
  (∀ sql args ok, Ev (CExecute sql args) ok ∉ trace r.2).
Proof.
  intros r. split_and!; [reflexivity | reflexivity | reflexivity |].
  intros sql args ok Hin. vm_compute in Hin.
  repeat (apply elem_of_cons in Hin as [Hin|Hin]; [discriminate Hin|]).
  by apply elem_of_nil in Hin.
Qed.

Lemma alert_of_typed_event :
  dict_update {["type" := JStr "ALERT"]} typed_event !! "type" = Some (JStr "INFO") ∧
  dict_update {["type" := JStr "ALERT"]} (event_of "S1" 1700000000) !! "type"
    = Some (JStr "ALERT").
Proof.
  pose proof (alert_type_is_overridden sample_dumps typed_event (running [1] all_ok))
    as H1.
  pose proof (alert_type_is_overridden sample_dumps (event_of "S1" 1700000000)
                (running [1] all_ok)) as H2.
  simpl in H1, H2.
  destruct H1 as (_ & Hty & _). destruct H2 as (_ & _ & Hnone & _).
  split.
  - apply Hty. vm_compute. reflexivity.
  - apply Hnone. vm_compute. reflexivity.
Defined.

Lemma insert_of_partial_event :
  let r := process_message sample_dumps (JObj partial_event) (running [] all_ok) in
  table r.2 = [mkRow JNull (JStr "idle") JNull None].
Proof.
  intros r.
  destruct (insert_without_validation sample_dumps (JObj partial_event)
              (mkPool 1 5 false) (running [] all_ok) eq_refl eq_refl eq_refl)
    as (ok & rest & _ & Hok & Hrow & _).
  apply Hrow. rewrite Hok. reflexivity.
Defined.

Lemma recent_after_25_inserts :
  let w := after_inserts (seq 11 15 ++ seq 1 10) in
  length (table w) = 25 ∧
  ∃ rows, (recent w).1 = Ret rows ∧ length rows = 20 ∧ StronglySorted ts_desc rows.
Proof.
  intros w.
  assert (length (table w) = 25) as H25 by (vm_compute; reflexivity).
  split; [exact H25|].
  destruct (recent_returns_latest_twenty (mkPool 1 5 false) w)
    as (rows & others & Hret & _ & _ & Hsorted & _ & _ & _ & _ & Hlen).
  - vm_compute. reflexivity.
  - reflexivity.
  - vm_compute. reflexivity.
  - vm_compute. reflexivity.
  - exists rows. split_and!; [exact Hret | apply Hlen, H25 | exact Hsorted].
Defined.

Example recent_after_25_inserts_rows :
  (λ r, ts r) <$> default [] (match (recent (after_inserts (seq 11 15 ++ seq 1 10))).1 with
                              | Ret rows => Some rows
                              | Raise _ => None
                              end)
  = (λ n, Some (inject_Z (Z.of_nat n))) <$> reverse (seq 6 20).
Proof. vm_compute. reflexivity. Qed.

Example recent_of_empty_table :
  (recent (running [] all_ok)).1 = Ret [].
Proof. vm_compute. reflexivity. Qed.

(** * Further properties *)

(** ** The registry under broadcast *)

Lemma list_remove_sublist c l l' : list_remove c l = Some l' → l' `sublist_of` l.
Proof.
  revert l'. induction l as [|y l IH]; intros l' Hrem; [done|].
  simpl in Hrem. case_decide.
  - injection Hrem as <-. by apply sublist_cons.
  - destruct (list_remove c l) as [l0|]; [|done].
    injection Hrem as <-. apply sublist_skip. by apply IH.
Qed.

Lemma remove_each_sublist l rm : remove_each l rm `sublist_of` l.
Proof.
  revert l. induction rm as [|c rm IH]; intros l; simpl; [done|].
  destruct (list_remove c l) as [l'|] eqn:E; simpl.
  - etrans; [apply IH|]. by eapply list_remove_sublist.
  - apply IH.
Qed.

Lemma send_outcomes_length o tr message conns :
  length (send_outcomes o tr message conns) = length conns.
Proof. by rewrite <- (send_outcomes_fst o tr message conns) at 2; rewrite length_fmap. Qed.

(** X1.  Whatever [Exception]s its sends raise, [broadcast] returns
    normally: the failure of a send never surfaces.  It makes one send per
    registered connection and no other call; it never adds a connection and
    never reorders the registry; it leaves the table, the pool and the task
    alone. *)
Theorem broadcast_never_raises (message : string) (w : World) :
  (broadcast message w).1 = Ret tt ∧
  (∃ evs, trace (broadcast message w).2 = trace w ++ evs ∧
          length evs = length (active w) ∧
          Forall is_send evs) ∧
  active (broadcast message w).2 `sublist_of` active w ∧
  table (broadcast message w).2 = table w ∧
  db (broadcast message w).2 = db w ∧
  kafka_task (broadcast message w).2 = kafka_task w ∧
  outside (broadcast message w).2 = outside w.
Proof.
  rewrite broadcast_eq. simpl. split_and!; try done.
  - eexists. split_and!; [done| |].
    + by rewrite length_fmap, send_outcomes_length.
    + apply Forall_fmap, Forall_forall. by intros [c ok] _.
  - apply remove_each_sublist.
Qed.

Lemma occurrences_failed_uniform o tr message conns c (ok : bool) :
  (∀ tr', o tr' (CSendText c message) = ok) →
  occurrences c (failed (send_outcomes o tr message conns)) =
    if ok then 0 else occurrences c conns.
Proof.
  intros Hc. revert tr. induction conns as [|x conns IH]; intros tr; simpl.
  - by destruct ok.
  - rewrite failed_cons, (occurrences_cons c x conns).
    case_decide as Hx.
    + subst x. rewrite Hc. destruct ok; simpl.
      * by rewrite IH.
      * by rewrite occurrences_cons, decide_True, IH.
    + destruct (o tr (CSendText x message)); simpl.
      * by rewrite IH.
      * by rewrite occurrences_cons, decide_False, IH.
Qed.

(** X2.  A connection that [connect] registered is sent the next
    broadcast, after the connections registered before it. *)
Theorem broadcast_reaches_new_connection (c : WebSocket) (message : string)
    (w : World) :
  outside w (trace w) (CAccept c) = true →
  let w1 := (connect c w).2 in
  ∃ outs ok,
    trace (broadcast message w1).2
      = trace w1 ++ (send_event message <$> outs) ++ [Ev (CSendText c message) ok] ∧
    outs.*1 = active w.
Proof.
  intros Hacc w1. subst w1. rewrite connect_eq, Hacc, broadcast_eq. simpl.
  assert (∀ o tr l, ∃ outs ok,
            send_outcomes o tr message (l ++ [c]) = outs ++ [(c, ok)] ∧ outs.*1 = l)
    as Hsnoc.
  { intros o tr l. revert tr. induction l as [|x l IH]; intros tr; simpl.
    - by eexists [], _.
    - destruct (IH (tr ++ [Ev (CSendText x message) (o tr (CSendText x message))]))
        as (outs & ok & -> & Hfst).
      eexists (_ :: outs), ok. split; [done|]. by rewrite fmap_cons, Hfst. }
  destruct (Hsnoc (outside w) (trace w ++ [Ev (CAccept c) true]) (active w))
    as (outs & ok & -> & Hfst).
  exists outs, ok. split; [|exact Hfst]. by rewrite fmap_app.
Qed.

Lemma broadcast_reaches_third_connection :
  let w1 := (connect 3 (world0 [1; 2] all_ok)).2 in
  ∃ outs ok,
    trace (broadcast "alert" w1).2
      = trace w1 ++ (send_event "alert" <$> outs) ++ [Ev (CSendText 3 "alert") ok] ∧
    outs.*1 = [1; 2].
Proof.
  exact (broadcast_reaches_new_connection 3 "alert" (world0 [1; 2] all_ok) eq_refl).
Defined.

(** X3.  A connection whose send raises at every attempt is gone from the
    registry after one broadcast, however often it was registered; a
    connection whose send always returns keeps every registration. *)
Theorem broadcast_settles_connection (message : string) (c : WebSocket)
    (ok : bool) (w : World) :
  (∀ tr, outside w tr (CSendText c message) = ok) →
  occurrences c (active (broadcast message w).2) =
    if ok then occurrences c (active w) else 0.
Proof.
  intros Hc. rewrite broadcast_occurrences.
  rewrite (occurrences_failed_uniform _ _ _ _ c ok Hc).
  destruct ok; lia.
Qed.

Lemma broadcast_settles_second_of_three :
  occurrences 2 (active (broadcast "alert" (world0 [1; 2; 3; 2] (send_fails_to 2))).2) = 0.
Proof.
  apply (broadcast_settles_connection "alert" 2 false
           (world0 [1; 2; 3; 2] (send_fails_to 2))).
  intros tr. reflexivity.
Defined.

(** X4.  A registry that holds every connection once keeps doing so under
    [disconnect] and under [broadcast]; after [disconnect] the connection
    is absent from it. *)
Theorem registry_stays_duplicate_free (c : WebSocket) (message : string) (w : World) :
  NoDup (active w) →
  NoDup (active (disconnect c w).2) ∧
  (c ∉ active (disconnect c w).2) ∧
  active (disconnect c w).2 `sublist_of` active w ∧
  NoDup (active (broadcast message w).2).
Proof.
  intros Hnd. rewrite disconnect_eq. simpl.
  assert (default (active w) (list_remove c (active w)) `sublist_of` active w) as Hsub.
  { destruct (list_remove c (active w)) as [l'|] eqn:E; simpl; [|reflexivity].
    by eapply list_remove_sublist. }
  split_and!.
  - by apply (sublist_NoDup _ (active w)).
  - apply occurrences_zero.
    destruct (list_remove c (active w)) as [l'|] eqn:E; simpl.
    + rewrite (occurrences_list_remove c c _ _ E), decide_True by done.
      pose proof (NoDup_occurrences c _ Hnd). lia.
    + apply occurrences_zero. intros Hin.
      destruct (list_remove_is_Some _ _ Hin) as [? ?]. congruence.
  - exact Hsub.
  - apply (sublist_NoDup _ (active w)); [exact Hnd|].
    rewrite broadcast_eq. simpl. apply remove_each_sublist.
Qed.

Lemma registry_of_three_stays_duplicate_free :
  let w := world0 [1; 2; 3] (send_fails_to 2) in
  NoDup (active (disconnect 2 w).2) ∧ NoDup (active (broadcast "alert" w).2).
Proof.
  intros w.
  destruct (registry_stays_duplicate_free 2 "alert" w) as (H1 & _ & _ & H2).
  - apply (bool_decide_unpack _). vm_compute. exact I.
  - split; [exact H1 | exact H2].
Defined.

(** ** The websocket route *)

Lemma receive_frames_eq frames w : receive_frames frames w = (Ret tt, w).
Proof. induction frames as [|f frames IH]; [done | exact IH]. Qed.

Lemma list_remove_last_fresh c l : c ∉ l → list_remove c (l ++ [c]) = Some l.
Proof.
  intros Hnin. rewrite (list_remove_app_fresh c l [] Hnin). by rewrite app_nil_r.
Qed.

(** X5.  A websocket session that the client ends, once the handshake
    returned: whatever frames the client sent, the route returns normally,
    every connection is registered as often as before, and the only call
    made is the handshake.  For a websocket that was not registered the
    registry is what it was before the session. *)
Theorem ws_alerts_session_round_trip (c : WebSocket) (frames : list string)
    (w : World) :
  outside w (trace w) (CAccept c) = true →
  let r := ws_alerts c frames ClientDisconnect w in
  r.1 = Ret tt ∧
  trace r.2 = trace w ++ [Ev (CAccept c) true] ∧
  table r.2 = table w ∧
  (∀ x, occurrences x (active r.2) = occurrences x (active w)) ∧
  (c ∉ active w → active r.2 = active w).
Proof.
  intros Hacc r. subst r.
  unfold ws_alerts, bind. rewrite connect_eq, Hacc, receive_frames_eq, disconnect_eq.
  simpl. split_and!; try done.
  - intros x.
    assert (c ∈ active w ++ [c]) as Hin.
    { apply elem_of_app. right. by apply list_elem_of_singleton. }
    destruct (list_remove_is_Some _ _ Hin) as [l' Hl']. rewrite Hl'. simpl.
    rewrite (occurrences_list_remove x c _ _ Hl').
    unfold occurrences. rewrite filter_app, length_app, filter_cons.
    repeat case_decide; subst; try done; simpl; lia.
  - intros Hnin. by rewrite (list_remove_last_fresh _ _ Hnin).
Qed.

Lemma ws_alerts_session_of_new_client :
  let w := world0 [1; 2] all_ok in
  active (ws_alerts 3 ["ping"; "ping"] ClientDisconnect w).2 = [1; 2].
Proof.
  intros w.
  destruct (ws_alerts_session_round_trip 3 ["ping"; "ping"] w eq_refl)
    as (_ & _ & _ & _ & Hfresh).
  apply Hfresh. apply (bool_decide_unpack _). vm_compute. exact I.
Defined.

(** X6.  The two ways a websocket session fails.  When the handshake
    raises, the route raises and the websocket is not registered.  When the
    keepalive loop ends with an exception other than the client's
    disconnect, the route raises and the websocket stays registered, at the
    end of the registry: nothing on this path removes it. *)
Theorem ws_alerts_error_keeps_registration (c : WebSocket) (frames : list string)
    (w : World) :
  if outside w (trace w) (CAccept c)
  then (ws_alerts c frames ChannelError w).1 = Raise TransportError ∧
       active (ws_alerts c frames ChannelError w).2 = active w ++ [c] ∧
       trace (ws_alerts c frames ChannelError w).2 = trace w ++ [Ev (CAccept c) true]
  else ∀ ending,
       (ws_alerts c frames ending w).1 = Raise TransportError ∧
       active (ws_alerts c frames ending w).2 = active w ∧
       trace (ws_alerts c frames ending w).2 = trace w ++ [Ev (CAccept c) false].
Proof.
  unfold ws_alerts, bind. rewrite connect_eq.
  destruct (outside w (trace w) (CAccept c)).
  - by rewrite receive_frames_eq.
  - by intros ending.
Qed.

(** ** Cycles of the consumer *)

Lemma count_events_app f evs1 evs2 :
  count_events f (evs1 ++ evs2) = count_events f evs1 + count_events f evs2.
Proof. unfold count_events. by rewrite filter_app, length_app. Qed.

Lemma count_events_sends message outs :
  count_events is_acquired (send_event message <$> outs) = 0 ∧
  count_events is_released (send_event message <$> outs) = 0.
Proof.
  unfold count_events. induction outs as [|[c ok] outs [IH1 IH2]]; [done|].
  rewrite fmap_cons, !filter_cons. simpl. done.
Qed.

Lemma Forall_cycle_sends message outs :
  Forall is_cycle_event (send_event message <$> outs).
Proof. apply Forall_fmap, Forall_forall. by intros [c ok] _. Qed.

Section CycleProperties.

Variable json_dumps : json → string.

(** What one run of the loop body can do to the world, in every case. *)
Lemma process_message_frame data w :
  let r := process_message json_dumps data w in
  (∃ evs, trace r.2 = trace w ++ evs ∧
          Forall is_cycle_event evs ∧
          count_events is_acquired evs = count_events is_released evs) ∧
  active r.2 `sublist_of` active w ∧
  (table r.2 = table w ∨ ∃ row, table r.2 = table w ++ [row]) ∧
  db r.2 = db w ∧
  kafka_task r.2 = kafka_task w ∧
  outside r.2 = outside w.
Proof.
  intros r. subst r.
  assert ((∃ d, data = JObj d) ∨ (∀ d, data ≠ JObj d)) as [[d ->]|Hnd].
  { destruct data; try (right; intros ?; discriminate). left. by eexists. }
  - rewrite process_message_dict.
    destruct (db w) as [p|] eqn:Hdb.
    2:{ split_and!; try done; [|by left].
        exists []. by rewrite app_nil_r. }
    destruct (closed p || negb (outside w (trace w) (CAcquire p))).
    { split_and!; try done; [|by left].
      eexists. split_and!; [done| |done].
      by repeat constructor. }
    destruct (outside w (trace w ++ [Ev (CAcquire p) true])
                (CExecute insert_sql (insert_args d))).
    + rewrite broadcast_eq. simpl. split_and!; try done.
      * eexists. split_and!.
        -- rewrite <- app_assoc. reflexivity.
        -- apply Forall_app. split; [by repeat constructor|].
           apply Forall_cycle_sends.
        -- rewrite !count_events_app.
           destruct (count_events_sends (json_dumps (alert_of d))
                       (send_outcomes (outside w)
                          (trace w ++ [Ev (CAcquire p) true;
                                       Ev (CExecute insert_sql (insert_args d)) true;
                                       Ev (CRelease p) true])
                          (json_dumps (alert_of d)) (active w))) as [-> ->].
           done.
      * apply remove_each_sublist.
      * right. by eexists.
    + split_and!; try done; [|by left].
      eexists. split_and!; [done| |done].
      by repeat constructor.
  - rewrite (process_message_not_dict _ _ _ Hnd).
    destruct (db w) as [p|] eqn:Hdb.
    2:{ split_and!; try done; [|by left].
        exists []. by rewrite app_nil_r. }
    destruct (closed p || negb (outside w (trace w) (CAcquire p))).
    { split_and!; try done; [|by left].
      eexists. split_and!; [done| |done].
      by repeat constructor. }
    split_and!; try done; [|by left].
    eexists. split_and!; [done| |done].
    by repeat constructor.
Qed.

End CycleProperties.

(** ** Runs of the consumer *)

Section RunProperties.

Variable value_deserializer : string → option json.
Variable json_dumps : json → string.

(** What the loop can do to the world, over any payloads. *)
Lemma consume_frame payloads w :
  let r := consume value_deserializer json_dumps payloads w in
  (∃ evs, trace r.2 = trace w ++ evs ∧
          Forall is_cycle_event evs ∧
          count_events is_acquired evs = count_events is_released evs) ∧
  active r.2 `sublist_of` active w ∧
  (∃ rows, table r.2 = table w ++ rows ∧ length rows ≤ length payloads) ∧
  db r.2 = db w ∧
  kafka_task r.2 = kafka_task w ∧
  outside r.2 = outside w.
Proof.
  revert w. induction payloads as [|m rest IH]; intros w; simpl.
  - split_and!; try done.
    + exists []. by rewrite app_nil_r.
    + exists []. by rewrite app_nil_r.
  - destruct (value_deserializer m) as [data|].
    2:{ simpl. split_and!; try done.
        - exists []. by rewrite app_nil_r.
        - exists []. rewrite app_nil_r. split; [done | simpl; lia]. }
    unfold bind.
    pose proof (process_message_frame json_dumps data w) as Hp. simpl in Hp.
    destruct (process_message json_dumps data w) as [[[]|e] w1]; simpl in Hp;
      destruct Hp as ((evs1 & Htr1 & Hcyc1 & Hbal1) & Hsub1 & Htab1 & Hdb1 & Hk1 & Ho1).
    + specialize (IH w1). simpl in IH.
      destruct IH as ((evs2 & Htr2 & Hcyc2 & Hbal2) & Hsub2 & (rows2 & Htab2 & Hlen2)
                      & Hdb2 & Hk2 & Ho2).
      split_and!.
      * exists (evs1 ++ evs2). split_and!.
        -- by rewrite Htr2, Htr1, app_assoc.
        -- apply Forall_app. done.
        -- rewrite !count_events_app. lia.
      * by etrans.
      * destruct Htab1 as [Htab1|[row Htab1]].
        -- exists rows2. rewrite Htab2, Htab1. split; [done|lia].
        -- exists (row :: rows2). rewrite Htab2, Htab1, <- app_assoc.
           split; [done | simpl; lia].
      * congruence.
      * congruence.
      * congruence.
    + simpl. split_and!; try done.
      * by exists evs1.
      * destruct Htab1 as [Htab1|[row Htab1]].
        -- exists []. rewrite app_nil_r. split; [done | simpl; lia].
        -- exists [row]. split; [done | simpl; lia].
Qed.

(** X8.  The subscription is released whenever it was taken.  When
    [start] raises, the task ends there: no message is processed and [stop]
    is not called.  When [start] returns, [stop] is called once, as the last
    call of the task, however the loop ended; between the two there are only
    calls of message cycles. *)
Theorem consumer_stops_what_it_started (payloads : list string) (w : World) :
  let r := kafka_consumer_task value_deserializer json_dumps payloads w in
  if outside w (trace w) CConsumerStart
  then ∃ evs ok,
         trace r.2 = trace w ++ [Ev CConsumerStart true] ++ evs ++ [Ev CConsumerStop ok] ∧
         Forall is_cycle_event evs ∧
         (ok = false → r.1 = Raise BrokerError)
  else r = (Raise BrokerError, set_trace (trace w ++ [Ev CConsumerStart false]) w).
Proof.
  intros r. subst r. unfold kafka_consumer_task, bind. rewrite call_or_raise_eq.
  destruct (outside w (trace w) CConsumerStart); simpl; [|done].
  unfold try_finally.
  pose proof (consume_frame payloads (set_trace (trace w ++ [Ev CConsumerStart true]) w))
    as Hc. simpl in Hc.
  destruct (consume value_deserializer json_dumps payloads
              (set_trace (trace w ++ [Ev CConsumerStart true]) w)) as [r1 w1].
  simpl in Hc. destruct Hc as ((evs & Htr & Hcyc & _) & _).
  rewrite call_or_raise_eq.
  exists evs, (outside w1 (trace w1) CConsumerStop).
  destruct (outside w1 (trace w1) CConsumerStop); simpl;
    (split_and!; [by rewrite Htr, <- !app_assoc | done | done]).
Qed.

(** X9.  What a run of the consumer leaves alone.  It only appends rows to
    the table, at most one per payload; it never adds a connection to the
    registry and never reorders it; it does not touch the pool or the task
    object. *)
Theorem consumer_only_appends_rows (payloads : list string) (w : World) :
  let r := kafka_consumer_task value_deserializer json_dumps payloads w in
  (∃ rows, table r.2 = table w ++ rows ∧ length rows ≤ length payloads) ∧
  active r.2 `sublist_of` active w ∧
  db r.2 = db w ∧
  kafka_task r.2 = kafka_task w.
Proof.
  intros r. subst r. unfold kafka_consumer_task, bind. rewrite call_or_raise_eq.
  destruct (outside w (trace w) CConsumerStart); simpl.
  2:{ split_and!; try done. exists []. rewrite app_nil_r. split; [done | simpl; lia]. }
  unfold try_finally.
  pose proof (consume_frame payloads (set_trace (trace w ++ [Ev CConsumerStart true]) w))
    as Hc. simpl in Hc.
  destruct (consume value_deserializer json_dumps payloads
              (set_trace (trace w ++ [Ev CConsumerStart true]) w)) as [r1 w1].
  simpl in Hc. destruct Hc as (_ & Hsub & Htab & Hdb & Hk & _).
  rewrite call_or_raise_eq.
  destruct (outside w1 (trace w1) CConsumerStop); simpl; done.
Qed.

(** X13.  No connection is kept: in every run of the consumer, and in
    every call of the recent-history route, as many connections are given
    back to the pool as were taken from it, whichever way the run ends. *)
Theorem connections_are_given_back (payloads : list string) (w : World) :
  (∃ evs,
     trace (kafka_consumer_task value_deserializer json_dumps payloads w).2
       = trace w ++ evs ∧
     count_events is_acquired evs = count_events is_released evs) ∧
  (∃ evs,
     trace (recent w).2 = trace w ++ evs ∧
     count_events is_acquired evs = count_events is_released evs).
Proof.
  split.
  - unfold kafka_consumer_task, bind. rewrite call_or_raise_eq.
    destruct (outside w (trace w) CConsumerStart); simpl.
    2:{ by eexists. }
    unfold try_finally.
    pose proof (consume_frame payloads (set_trace (trace w ++ [Ev CConsumerStart true]) w))
      as Hc. simpl in Hc.
    destruct (consume value_deserializer json_dumps payloads
                (set_trace (trace w ++ [Ev CConsumerStart true]) w)) as [r1 w1].
    simpl in Hc. destruct Hc as ((evs & Htr & _ & Hbal) & _).
    rewrite call_or_raise_eq.
    exists ([Ev CConsumerStart true] ++ evs
            ++ [Ev CConsumerStop (outside w1 (trace w1) CConsumerStop)]).
    split.
    + destruct (outside w1 (trace w1) CConsumerStop); simpl;
        by rewrite Htr, <- !app_assoc.
    + rewrite !count_events_app, Hbal. done.
  - rewrite recent_eq. destruct (db w) as [p|].
    2:{ exists []. by rewrite app_nil_r. }
    destruct (closed p || negb (outside w (trace w) (CAcquire p))).
    { by eexists. }
    destruct (outside w (trace w ++ [Ev (CAcquire p) true]) (CFetch select_sql));
      by eexists.
Qed.

End RunProperties.

(** ** Streams and the store *)

Lemma store_up_frame w w' p :
  store_up w p → db w' = db w → outside w' = outside w → store_up w' p.
Proof. unfold store_up. intros (Hdb & Hcl & Ho) -> ->. done. Qed.

Section StoreProperties.

Variable value_deserializer : string → option json.
Variable json_dumps : json → string.

(** With the store answering, the loop body on a dict inserts the row and
    broadcasts. *)
Lemma process_message_store_up d p w :
  store_up w p →
  process_message json_dumps (JObj d) w =
    broadcast (json_dumps (alert_of d))
      (set_table (table w ++ [row_of w d])
         (set_trace
            (trace w ++ [Ev (CAcquire p) true;
                         Ev (CExecute insert_sql (insert_args d)) true;
                         Ev (CRelease p) true]) w)).
Proof.
  intros (Hdb & Hcl & Ho). rewrite process_message_dict, Hdb, Hcl.
  destruct (Ho (trace w)) as (-> & _ & _). simpl.
  destruct (Ho (trace w ++ [Ev (CAcquire p) true])) as (_ & _ & ->). done.
Qed.




(** X11.  The first cycle that raises ends the loop with its exception,
    in the world that cycle left: the payloads delivered after it are not
    processed. *)
Theorem consume_ends_at_first_raise (pre post : list string) (m : string)
    (data : json) (e : exn) (w w1 w2 : World) :
  consume value_deserializer json_dumps pre w = (Ret tt, w1) →
  value_deserializer m = Some data →
  process_message json_dumps data w1 = (Raise e, w2) →
  consume value_deserializer json_dumps (pre ++ m :: post) w = (Raise e, w2).
Proof.
  revert w. induction pre as [|m0 pre IH]; intros w Hpre Hm Hraise; simpl in *.
  - injection Hpre as <-. rewrite Hm. unfold bind. by rewrite Hraise.
  - destruct (value_deserializer m0) as [data0|]; [|done].
    unfold bind in *.
    destruct (process_message json_dumps data0 w) as [[[]|e0] w0]; [|done].
    by apply IH.
Qed.

(** X12.  A payload that deserializes to something other than a dict, a
    list or a number say, ends the loop as well: with a connection acquired,
    [get] raises [AttributeError], the connection is given back, nothing is
    inserted and nothing is sent, and the payloads after it are not
    processed. *)
Theorem non_dict_payload_ends_loop (m : string) (rest : list string) (data : json)
    (p : Pool) (w : World) :
  value_deserializer m = Some data →
  (∀ d, data ≠ JObj d) →
  db w = Some p →
  closed p = false →
  outside w (trace w) (CAcquire p) = true →
  consume value_deserializer json_dumps (m :: rest) w =
    (Raise AttributeError,
     set_trace (trace w ++ [Ev (CAcquire p) true; Ev (CRelease p) true]) w).
Proof.
  intros Hm Hnd Hdb Hcl Hacq. simpl. rewrite Hm. unfold bind.
  by rewrite (process_message_not_dict _ _ _ Hnd), Hdb, Hcl, Hacq.
Qed.

End StoreProperties.

(** ** The pool over the life of the application *)

Lemma closed_pool_refuses_recent p w :
  db w = Some p → closed p = true →
  recent w = (Raise StoreError, set_trace (trace w ++ [Ev (CAcquire p) false]) w).
Proof. intros Hdb Hcl. by rewrite recent_eq, Hdb, Hcl. Qed.

Lemma closed_pool_refuses_cycle json_dumps data p w :
  db w = Some p → closed p = true →
  process_message json_dumps data w =
    (Raise StoreError, set_trace (trace w ++ [Ev (CAcquire p) false]) w).
Proof.
  intros Hdb Hcl.
  assert ((∃ d, data = JObj d) ∨ (∀ d, data ≠ JObj d)) as [[d ->]|Hnd].
  { destruct data; try (right; intros ?; discriminate). left. by eexists. }
  - by rewrite process_message_dict, Hdb, Hcl.
  - by rewrite (process_message_not_dict _ _ _ Hnd), Hdb, Hcl.
Qed.

(** X14.  After a [shutdown] that closed the pool, the pool refuses: the
    recent-history route raises without a query, and a message cycle of the
    consumer, which [shutdown] did not wait for, raises without an INSERT
    and without a send, so the message is neither stored nor broadcast. *)
Theorem nothing_reaches_store_after_shutdown (t : task_status) (p : Pool)
    (w : World) :
  kafka_task w = Some t →
  db w = Some p →
  outside w (trace w ++ [Ev CTaskCancel true]) (CPoolClose p) = true →
  let w' := (shutdown w).2 in
  let p' := mkPool (min_size p) (max_size p) true in
  db w' = Some p' ∧
  recent w' = (Raise StoreError, set_trace (trace w' ++ [Ev (CAcquire p') false]) w') ∧
  ∀ (json_dumps : json → string) (data : json),
    process_message json_dumps data w' =
      (Raise StoreError, set_trace (trace w' ++ [Ev (CAcquire p') false]) w').
Proof.
  intros Ht Hdb Hclose w' p'.
  assert (db w' = Some p') as Hdb'.
  { unfold w', shutdown, bind. rewrite cancel_task_eq, Ht. simpl.
    rewrite close_pool_eq. simpl. by rewrite Hdb, Hclose. }
  split_and!.
  - exact Hdb'.
  - by apply closed_pool_refuses_recent.
  - intros json_dumps data. by apply closed_pool_refuses_cycle.
Qed.

Lemma nothing_reaches_store_after_shutdown_of_running :
  let w' := (shutdown (running [1] all_ok)).2 in
  (recent w').1 = Raise StoreError ∧
  (process_message sample_dumps (JObj (event_of "S1" 1700000000)) w').1
    = Raise StoreError.
Proof.
  intros w'.
  destruct (nothing_reaches_store_after_shutdown Scheduled (mkPool 1 5 false)
              (running [1] all_ok) eq_refl eq_refl eq_refl) as (_ & Hrecent & Hcycle).
  split.
  - fold w' in Hrecent. by rewrite Hrecent.
  - fold w' in Hcycle. by rewrite Hcycle.
Defined.

(** X15.  [shutdown] when no task was created: reading
    [app.state.kafka_task] raises [AttributeError], nothing is cancelled
    and the pool is not closed.  This is the state a [startup] leaves when
    [create_pool] raised in an application that had not started before. *)
Theorem shutdown_without_task (w : World) :
  kafka_task w = None →
  shutdown w = (Raise AttributeError, w) ∧
  (outside w (trace w) (CCreatePool 1 5) = false →
   (startup w).1 = Raise StoreError ∧
   shutdown (startup w).2 = (Raise AttributeError, (startup w).2) ∧
   db (startup w).2 = db w).
Proof.
  intros Hk. split.
  - unfold shutdown, bind. by rewrite cancel_task_eq, Hk.
  - intros Hcreate. rewrite startup_eq, Hcreate. simpl. split_and!; try done.
    unfold shutdown, bind. rewrite cancel_task_eq. simpl. by rewrite Hk.
Qed.

(** Every call returns, except [create_pool]. *)
Lemma shutdown_after_failed_startup :
  let o := λ (_ : list Event) c, match c with CCreatePool _ _ => false | _ => true end in
  let w := world0 [] o in
  (startup w).1 = Raise StoreError ∧
  (shutdown (startup w).2).1 = Raise AttributeError.
Proof.
  intros o w.
  destruct (shutdown_without_task w eq_refl) as (_ & Hfail).
  destruct (Hfail eq_refl) as (Hs & Hsh & _).
  split; [exact Hs | by rewrite Hsh].
Defined.

(** ** Reading the table *)

Lemma order_by_ts_desc_limit_elem_of n rows r :
  r ∈ order_by_ts_desc_limit n rows → r ∈ rows.
Proof.
  unfold order_by_ts_desc_limit. intros Hin.
  rewrite <- (merge_sort_Permutation ts_desc rows).
  eapply elem_of_sublist; [exact Hin | apply sublist_take].
Qed.

(** X16.  The recent-history route only reads: in every world and
    whatever its outcome, it leaves the table, the registry, the pool and
    the task as they were, and it makes no INSERT and no send.  What it
    returns are rows of the table, at most 20. *)
Theorem recent_only_reads (w : World) :
  table (recent w).2 = table w ∧
  active (recent w).2 = active w ∧
  db (recent w).2 = db w ∧
  kafka_task (recent w).2 = kafka_task w ∧
  (∃ evs, trace (recent w).2 = trace w ++ evs ∧
          ∀ e, e ∈ evs → ¬ is_send e ∧ ∀ sql args ok, e ≠ Ev (CExecute sql args) ok) ∧
  ∀ rows, (recent w).1 = Ret rows →
          length rows ≤ 20 ∧ ∀ r, r ∈ rows → r ∈ table w.
Proof.
  rewrite recent_eq.
  assert (∀ evs : list Event,
            Forall (λ e, ¬ is_send e ∧ ∀ sql args ok, e ≠ Ev (CExecute sql args) ok) evs →
            ∀ e, e ∈ evs → ¬ is_send e ∧ ∀ sql args ok, e ≠ Ev (CExecute sql args) ok)
    as Hall.
  { intros evs HF. by apply Forall_forall. }
  destruct (db w) as [p|] eqn:Hdb.
  2:{ split_and!; [done|done|by simpl|done| |by intros rows [=]].
      exists []. rewrite app_nil_r. split; [done|]. apply Hall. constructor. }
  destruct (closed p || negb (outside w (trace w) (CAcquire p))).
  { split_and!; [done|done|by simpl|done| |by intros rows [=]].
    eexists. split; [done|]. apply Hall. repeat constructor; simpl; auto. }
  destruct (outside w (trace w ++ [Ev (CAcquire p) true]) (CFetch select_sql)).
  - split_and!; [done|done|by simpl|done| |].
    + eexists. split; [done|]. apply Hall. repeat constructor; simpl; auto.
    + simpl. intros rows [= <-]. split.
      * rewrite order_by_ts_desc_limit_length. lia.
      * intros r. apply order_by_ts_desc_limit_elem_of.
  - split_and!; [done|done|by simpl|done| |by intros rows [=]].
    eexists. split; [done|]. apply Hall. repeat constructor; simpl; auto.
Qed.

(** X17.  With the store answering and at most 20 rows in the table, the
    recent-history route returns every row of the table, each as often as
    the table holds it, latest first. *)
Theorem recent_returns_all_of_small_table (p : Pool) (w : World) :
  store_up w p →
  length (table w) ≤ 20 →
  ∃ rows, (recent w).1 = Ret rows ∧
          rows ≡ₚ table w ∧
          StronglySorted ts_desc rows.
Proof.
  intros (Hdb & Hcl & Ho) Hlen. rewrite recent_eq, Hdb, Hcl.
  destruct (Ho (trace w)) as (-> & _ & _). simpl.
  destruct (Ho (trace w ++ [Ev (CAcquire p) true])) as (_ & -> & _). simpl.
  eexists. split_and!; [done| |apply order_by_ts_desc_limit_sorted].
  unfold order_by_ts_desc_limit. rewrite take_ge.
  - apply merge_sort_Permutation.
  - by rewrite (Permutation_length (merge_sort_Permutation ts_desc (table w))).
Qed.

(** A row that is later than every row of the table comes out first. *)
Lemma order_by_ts_desc_limit_latest n rows row q :
  ts row = Some q →
  (∀ r, r ∈ rows → ∃ a, ts r = Some a ∧ (a < q)%Q) →
  ∃ rest, order_by_ts_desc_limit (S n) (rows ++ [row]) = row :: rest.
Proof.
  intros Hq Hold. unfold order_by_ts_desc_limit.
  pose proof (merge_sort_Permutation ts_desc (rows ++ [row])) as Hperm.
  assert (StronglySorted ts_desc (merge_sort ts_desc (rows ++ [row]))) as Hsorted
    by (apply StronglySorted_merge_sort; apply _).
  destruct (merge_sort ts_desc (rows ++ [row])) as [|h t].
  { apply Permutation_length in Hperm. rewrite length_app in Hperm.
    simpl in Hperm. lia. }
  assert (h = row) as ->.
  { assert (h ∈ rows ++ [row]) as Hh by (rewrite <- Hperm; apply list_elem_of_here).
    apply elem_of_app in Hh as [Hh|Hh]; [|by apply list_elem_of_singleton in Hh].
    exfalso. destruct (Hold h Hh) as (a & Ha & Hlt).
    assert (row ∈ h :: t) as Hrow.
    { rewrite Hperm. apply elem_of_app. right. by apply list_elem_of_singleton. }
    apply elem_of_cons in Hrow as [->|Hrow].
    - rewrite Hq in Ha. injection Ha as <-. exact (Qlt_irrefl _ Hlt).
    - apply StronglySorted_inv in Hsorted as [_ Hall].
      rewrite Forall_forall in Hall. specialize (Hall row Hrow).
      unfold ts_desc in Hall. rewrite Ha, Hq in Hall.
      exact (Qle_not_lt _ _ Hall Hlt). }
  by eexists.
Qed.

Lemma recent_store_up p w :
  store_up w p →
  recent w =
    (Ret (order_by_ts_desc_limit 20 (table w)),
     set_trace (trace w ++ [Ev (CAcquire p) true; Ev (CFetch select_sql) true;
                            Ev (CRelease p) true]) w).
Proof.
  intros (Hdb & Hcl & Ho). rewrite recent_eq, Hdb, Hcl.
  destruct (Ho (trace w)) as (-> & _ & _). simpl.
  by destruct (Ho (trace w ++ [Ev (CAcquire p) true])) as (_ & -> & _).
Qed.

(** X18.  Write, then read.  With the store answering, an event for which
    the store records a time later than that of every row in the table is,
    once its message cycle is over, the first row the recent-history route
    returns. *)
Theorem newest_event_is_first_in_recent (json_dumps : json → string)
    (d : gmap string json) (q : Q) (p : Pool) (w : World) :
  store_up w p →
  to_timestamp w (dict_get d "timestamp") = Some q →
  (∀ r, r ∈ table w → ∃ a, ts r = Some a ∧ (a < q)%Q) →
  ∃ rest,
    (recent (process_message json_dumps (JObj d) w).2).1 = Ret (row_of w d :: rest).
Proof.
  intros Hup Hts Hold.
  rewrite (process_message_store_up json_dumps d p w Hup), broadcast_eq.
  cbn [snd].
  match goal with
  | |- context [recent ?w1] =>
      assert (store_up w1 p) as Hup1 by (by eapply store_up_frame);
      rewrite (recent_store_up p w1 Hup1)
  end.
  simpl.
  destruct (order_by_ts_desc_limit_latest 19 (table w) (row_of w d) q) as [rest Hrest].
  - exact Hts.
  - exact Hold.
  - exists rest. by rewrite Hrest.
Qed.

(** * Further instances *)


Lemma refused_insert_ends_loop :
  let w := running [1] insert_refused in
  consume sample_deserializer sample_dumps ["first"; "second"] w =
    (Raise StoreError,
     (process_message sample_dumps (JObj (event_of "S1" 1700000000)) w).2).
Proof.
  intros w.
  apply (consume_ends_at_first_raise sample_deserializer sample_dumps
           [] ["second"] "first" (JObj (event_of "S1" 1700000000)) StoreError w w).
  - reflexivity.
  - reflexivity.
  - vm_compute. reflexivity.
Defined.

Lemma empty_list_payload_ends_loop :
  let w := running [1] all_ok in
  consume list_deserializer sample_dumps ["[]"; "first"] w =
    (Raise AttributeError,
     set_trace [Ev (CAcquire (mkPool 1 5 false)) true;
                Ev (CRelease (mkPool 1 5 false)) true] w).
Proof.
  intros w.
  apply (non_dict_payload_ends_loop list_deserializer sample_dumps "[]" ["first"]
           (JArr []) (mkPool 1 5 false) w).
  - reflexivity.
  - intros d. discriminate.
  - reflexivity.
  - reflexivity.
  - reflexivity.
Defined.

Lemma recent_of_three_rows :
  ∃ rows, (recent (after_inserts [2; 3; 1])).1 = Ret rows ∧
          rows ≡ₚ table (after_inserts [2; 3; 1]).
Proof.
  destruct (recent_returns_all_of_small_table (mkPool 1 5 false) (after_inserts [2; 3; 1]))
    as (rows & Hret & Hperm & _).
  - split_and!; [reflexivity | reflexivity |]. intros tr. split_and!; reflexivity.
  - vm_compute. lia.
  - by exists rows.
Defined.

Lemma newest_of_four_is_first :
  ∃ rest,
    (recent (process_message sample_dumps (JObj (event_of "S1" 1700000000))
               (after_inserts [2; 3; 1])).2).1
    = Ret (row_of (after_inserts [2; 3; 1]) (event_of "S1" 1700000000) :: rest).
Proof.
  apply (newest_event_is_first_in_recent sample_dumps (event_of "S1" 1700000000)
           (inject_Z 1700000000) (mkPool 1 5 false) (after_inserts [2; 3; 1])).
  - split_and!; [reflexivity | reflexivity |]. intros tr. split_and!; reflexivity.
  - reflexivity.
  - intros r Hr. vm_compute in Hr.
    repeat (apply elem_of_cons in Hr as [->|Hr];
            [eexists; split; [reflexivity | reflexivity]|]).
    by apply elem_of_nil in Hr.
Defined.

(** ** The registry in the worlds the module can reach *)

Lemma quiet_refl w : quiet w w.
Proof. split_and!; [done | exists []; by rewrite app_nil_r | done]. Qed.

Lemma quiet_trans w1 w2 w3 : quiet w1 w2 → quiet w2 w3 → quiet w1 w3.
Proof.
  intros (Hs1 & (e1 & Ht1) & Ho1) (Hs2 & (e2 & Ht2) & Ho2). split_and!.
  - by etrans.
  - exists (e1 ++ e2). by rewrite Ht2, Ht1, app_assoc.
  - congruence.
Qed.

Lemma quiet_keeps_registry w w' :
  quiet w w' →
  NoDup (active w) ∧ registry_accepted w →
  NoDup (active w') ∧ registry_accepted w'.
Proof.
  intros (Hsub & (evs & Htr) & _) [Hnd Hacc]. split.
  - by apply (sublist_NoDup _ (active w)).
  - intros c Hc. rewrite Htr. apply elem_of_app. left.
    apply Hacc. by eapply elem_of_sublist.
Qed.

Lemma disconnect_quiet c w : quiet w (disconnect c w).2.
Proof.
  rewrite disconnect_eq. simpl. split_and!; [|exists []; by rewrite app_nil_r|done].
  simpl. destruct (list_remove c (active w)) as [l'|] eqn:E; simpl; [|reflexivity].
  by eapply list_remove_sublist.
Qed.

Lemma broadcast_quiet message w : quiet w (broadcast message w).2.
Proof.
  rewrite broadcast_eq. simpl. split_and!; [|by eexists|done].
  simpl. apply remove_each_sublist.
Qed.

Lemma kafka_consumer_task_quiet value_deserializer json_dumps payloads w :
  quiet w (kafka_consumer_task value_deserializer json_dumps payloads w).2.
Proof.
  unfold kafka_consumer_task, bind. rewrite call_or_raise_eq.
  destruct (outside w (trace w) CConsumerStart); simpl.
  2:{ split_and!; [done | by eexists | done]. }
  unfold try_finally.
  pose proof (consume_frame value_deserializer json_dumps payloads
                (set_trace (trace w ++ [Ev CConsumerStart true]) w)) as Hc.
  simpl in Hc.
  destruct (consume value_deserializer json_dumps payloads
              (set_trace (trace w ++ [Ev CConsumerStart true]) w)) as [r1 w1].
  simpl in Hc. destruct Hc as ((evs & Htr & _) & Hsub & _ & _ & _ & Ho).
  rewrite call_or_raise_eq.
  destruct (outside w1 (trace w1) CConsumerStop); simpl;
    (split_and!; [done | rewrite Htr, <- !app_assoc; by eexists | done]).
Qed.

Lemma recent_quiet w : quiet w (recent w).2.
Proof.
  rewrite recent_eq. destruct (db w) as [p|]; [|apply quiet_refl].
  destruct (closed p || negb (outside w (trace w) (CAcquire p))).
  { split_and!; [done | by eexists | done]. }
  destruct (outside w (trace w ++ [Ev (CAcquire p) true]) (CFetch select_sql));
    (split_and!; [done | by eexists | done]).
Qed.

Lemma startup_quiet w : quiet w (startup w).2.
Proof.
  rewrite startup_eq. destruct (outside w (trace w) (CCreatePool 1 5));
    (split_and!; [done | by eexists | done]).
Qed.

Lemma shutdown_quiet w : quiet w (shutdown w).2.
Proof.
  unfold shutdown, bind. rewrite cancel_task_eq.
  destruct (kafka_task w); [|apply quiet_refl].
  rewrite close_pool_eq. simpl. destruct (db w) as [p|].
  - destruct (outside w (trace w ++ [Ev CTaskCancel true]) (CPoolClose p)); simpl;
      (split_and!; [done | rewrite <- app_assoc; by eexists | done]).
  - split_and!; [done | by eexists | done].
Qed.

Lemma connect_keeps_registry c w :
  accepts_once w →
  NoDup (active w) ∧ registry_accepted w →
  NoDup (active (connect c w).2) ∧ registry_accepted (connect c w).2.
Proof.
  intros Honce [Hnd Hacc]. rewrite connect_eq.
  destruct (outside w (trace w) (CAccept c)) eqn:Ho; simpl.
  - assert (c ∉ active w) as Hnin.
    { intros Hin. rewrite (Honce _ _ (Hacc _ Hin)) in Ho. discriminate Ho. }
    split.
    + apply NoDup_app. split_and!; [done| |apply NoDup_singleton].
      intros x Hx Hx'. apply list_elem_of_singleton in Hx'. by subst x.
    + intros x Hx. simpl in *. apply elem_of_app in Hx as [Hx|Hx].
      * apply elem_of_app. left. by apply Hacc.
      * apply list_elem_of_singleton in Hx. subst x.
        apply elem_of_app. right. by apply list_elem_of_singleton.
  - split; [done|]. intros x Hx. simpl in *.
    apply elem_of_app. left. by apply Hacc.
Qed.

Lemma connect_outside c w : outside (connect c w).2 = outside w.
Proof. rewrite connect_eq. by destruct (outside w (trace w) (CAccept c)). Qed.

Lemma ws_alerts_world c frames ending w :
  (ws_alerts c frames ending w).2 = (connect c w).2 ∨
  (ws_alerts c frames ending w).2 = (disconnect c (connect c w).2).2.
Proof.
  unfold ws_alerts, bind.
  destruct (connect c w) as [[[]|e] w1]; simpl; [|by left].
  rewrite receive_frames_eq. destruct ending; [by right | by left].
Qed.

(** In every world the module can reach, with websockets whose handshake
    returns once, the registry holds no connection twice and only
    websockets whose handshake returned. *)
Lemma reachable_registry w :
  reachable w →
  accepts_once w →
  NoDup (active w) ∧ registry_accepted w.
Proof.
  assert (∀ w w', outside w' = outside w → accepts_once w' → accepts_once w) as Hback.
  { intros w1 w2 Ho Honce tr c Hin. rewrite <- Ho. by apply Honce. }
  assert (∀ w w', quiet w w' → accepts_once w' → accepts_once w) as Hquiet.
  { intros w1 w2 (_ & _ & Ho). by apply Hback. }
  induction 1 as [w Hempty|c w Hr IH|c w Hr IH|message w Hr IH|c frames ending w Hr IH
                  |vd jd payloads w Hr IH|w Hr IH|w Hr IH|w Hr IH]; intros Honce.
  - rewrite Hempty. split; [apply NoDup_nil_2|].
    intros c Hc. rewrite Hempty in Hc. by apply elem_of_nil in Hc.
  - pose proof (Hback _ _ (connect_outside c w) Honce) as Honce0.
    by apply connect_keeps_registry, IH.
  - eapply quiet_keeps_registry; [apply disconnect_quiet|].
    apply IH. eapply Hquiet; [apply disconnect_quiet | exact Honce].
  - eapply quiet_keeps_registry; [apply broadcast_quiet|].
    apply IH. eapply Hquiet; [apply broadcast_quiet | exact Honce].
  - destruct (ws_alerts_world c frames ending w) as [Hw|Hw]; rewrite Hw in *.
    + pose proof (Hback _ _ (connect_outside c w) Honce) as Honce0.
      by apply connect_keeps_registry, IH.
    + pose proof (Hquiet _ _ (disconnect_quiet c (connect c w).2) Honce) as Honce1.
      pose proof (Hback _ _ (connect_outside c w) Honce1) as Honce0.
      eapply quiet_keeps_registry; [apply disconnect_quiet|].
      by apply connect_keeps_registry, IH.
  - eapply quiet_keeps_registry; [apply kafka_consumer_task_quiet|].
    apply IH. eapply Hquiet; [apply kafka_consumer_task_quiet | exact Honce].
  - eapply quiet_keeps_registry; [apply recent_quiet|].
    apply IH. eapply Hquiet; [apply recent_quiet | exact Honce].
  - eapply quiet_keeps_registry; [apply startup_quiet|].
    apply IH. eapply Hquiet; [apply startup_quiet | exact Honce].
  - eapply quiet_keeps_registry; [apply shutdown_quiet|].
    apply IH. eapply Hquiet; [apply shutdown_quiet | exact Honce].
Qed.
